(** * ViewerOutput: cache coordination, length resolution and stream registry

    A shallow embedding of [app/node/output/viewer/viewer.cpp] (Olive).
    The node's own members ([operation_stack_], [last_length_], the stream
    arrays, the output sockets) are fields of a state record.  Calls that
    leave the file (the two playback caches, the node traverser, the base
    class [Node], Qt signals) are recorded, in program order, as [Event]s
    returned next to the new state; the read-only surroundings of a call
    (connections, producer tables, virtual overrides, global settings) are
    an explicit [Graph] argument. *)

From Stdlib Require Import ZArith QArith Qminmax Lqa List Bool String Lia.
From stdpp Require Import base strings pretty gmap list.
Import ListNotations.

Local Open Scope Z_scope.

(** ** rational *)

(** [rational] is an exact fraction; the viewer never does arithmetic on
    it, only comparisons, so [Q] with its boolean tests is enough. *)
Module rational.

Definition isNull (r : Q) : bool := (Qnum r =? 0)%Z.

(** [operator<] *)
Definition lt (a b : Q) : bool :=
  match (a ?= b)%Q with Lt => true | _ => false end.

(** [operator!=] *)
Definition neq (a b : Q) : bool := negb (Qeq_bool a b).

End rational.

(** Qt's [qMax(a, b)] is [(a < b) ? b : a], [qMin(a, b)] is [(a < b) ? a : b]. *)
Definition qMax (a b : Q) : Q := if rational.lt a b then b else a.
Definition qMin (a b : Q) : Q := if rational.lt a b then a else b.

(** ** TimeRange *)

Record TimeRange := mkTimeRange { range_in : Q; range_out : Q }.

(** A point lies in the half-open range [[in, out)]. *)
Definition TimeRange_Contains (r : TimeRange) (p : Q) : Prop :=
  (range_in r <= p)%Q /\ (p < range_out r)%Q.

Definition TimeRange_contains_b (r : TimeRange) (p : Q) : bool :=
  Qle_bool (range_in r) p && rational.lt p (range_out r).

(** ** Stream parameters *)

Module VideoParams.

Inductive Type_ := kVideoTypeVideo | kVideoTypeStill | kVideoTypeImageSequence.

Definition Type_eqb (a b : Type_) : bool :=
  match a, b with
  | kVideoTypeVideo, kVideoTypeVideo
  | kVideoTypeStill, kVideoTypeStill
  | kVideoTypeImageSequence, kVideoTypeImageSequence => true
  | _, _ => false
  end.

Record t := mk {
  width : Z;
  height : Z;
  time_base : Q;
  frame_rate : Q;
  duration : Z;
  video_type : Type_;
  enabled : bool
}.

(** Modelled from the spec: the default-constructed descriptor and the
    validity test of [VideoParams] (render/videoparams.h is not among the
    sources at hand).  A zero-area video descriptor is invalid; the default
    descriptor is such a one. *)
Definition default : t := mk 0 0 0 0 0 kVideoTypeVideo false.

Definition is_valid (vp : t) : bool := (0 <? width vp) && (0 <? height vp).

(** [frame_rate_as_time_base()]: the frame rate flipped. *)
Definition frame_rate_as_time_base (vp : t) : Q := Qinv (frame_rate vp).

End VideoParams.

Module AudioParams.

Record t := mk {
  sample_rate : Z;
  channel_layout : Z;
  time_base : Q;
  duration : Z;
  enabled : bool
}.

(** Modelled from the spec: the default-constructed descriptor and the
    validity test of [AudioParams] (render/audioparams.h is not among the
    sources at hand).  A descriptor without a sample rate is invalid; the
    default descriptor is such a one. *)
Definition default : t := mk 0 0 0 0 false.

Definition is_valid (ap : t) : bool := 0 <? sample_rate ap.

End AudioParams.

(** ** Variants and value tables *)

Inductive QVariant :=
| QVariant_null
| QVariant_rational (q : Q)
| QVariant_VideoParams (vp : VideoParams.t)
| QVariant_AudioParams (ap : AudioParams.t).

(** [QVariant::value<T>()] yields a default-constructed [T] when the
    variant does not hold a [T]. *)
Definition value_rational (v : QVariant) : Q :=
  match v with QVariant_rational q => q | _ => 0%Q end.

Definition value_VideoParams (v : QVariant) : VideoParams.t :=
  match v with QVariant_VideoParams vp => vp | _ => VideoParams.default end.

Definition value_AudioParams (v : QVariant) : AudioParams.t :=
  match v with QVariant_AudioParams ap => ap | _ => AudioParams.default end.

Module NodeValue.

Inductive Type_ := kRational | kTexture | kSamples | kVideoParams | kAudioParams.

Definition Type_eqb (a b : Type_) : bool :=
  match a, b with
  | kRational, kRational | kTexture, kTexture | kSamples, kSamples
  | kVideoParams, kVideoParams | kAudioParams, kAudioParams => true
  | _, _ => false
  end.

Record t := mk { type : Type_; data : QVariant; tag : string }.

End NodeValue.

Module NodeValueTable.

Definition t := list NodeValue.t.

(** Modelled from the spec: [NodeValueTable::Get(type, tag)] (node/value.h
    is not among the sources at hand).  The table is looked up by exact attribute
    kind and name; the most recently pushed match wins and a missing
    attribute yields a null variant. *)
Fixpoint Get (table : t) (type : NodeValue.Type_) (tag : string) : QVariant :=
  match table with
  | [] => QVariant_null
  | v :: rest =>
      match Get rest type tag with
      | QVariant_null =>
          if NodeValue.Type_eqb (NodeValue.type v) type && String.eqb (NodeValue.tag v) tag
          then NodeValue.data v else QVariant_null
      | found => found
      end
  end.

End NodeValueTable.

(** ** Sockets and tracks *)

Definition kVideoParamsInput : string := "video_param_in".
Definition kAudioParamsInput : string := "audio_param_in".
Definition kTextureInput : string := "tex_in".
Definition kSamplesInput : string := "samples_in".

Module Track.

Inductive Type_ := kVideo | kAudio | kSubtitle.

Module Reference.

Record t := mk { type : Type_; index : Z }.

(** Modelled from the spec: [Track::Reference::ToString()] (the track
    classes are not among the sources at hand).  An output socket is labelled by
    medium and index. *)
Definition TypeToString (ty : Type_) : string :=
  match ty with
  | kVideo => "v"
  | kAudio => "a"
  | kSubtitle => "s"
  end.

Definition ToString (r : t) : string :=
  TypeToString (type r) +:+ ":" +:+ pretty (index r).

End Reference.

End Track.

(** An output of another node: the node and the name of its output. *)
Record NodeOutput := mkNodeOutput { output_node : nat; output_name : string }.

(** ** The surroundings of a call *)

Module Timecode.

(** The two timecode displays named by the viewer, the seconds display it
    substitutes for them, and the remaining displays of the enumeration. *)
Inductive Display :=
| kTimecodeDropFrame
| kTimecodeNonDropFrame
| kTimecodeSeconds
| kTimecodeFrames
| kTimecodeMilliseconds.

End Timecode.

Record Graph := mkGraph {
  (** [Node::IsInputConnected(input)] *)
  IsInputConnected : string -> bool;
  (** [Node::GetConnectedOutput(input)] *)
  GetConnectedOutput : string -> NodeOutput;
  (** what [NodeTraverser::GenerateTable(output, range)] evaluates to *)
  GenerateTable : NodeOutput -> TimeRange -> NodeValueTable.t;
  (** the virtual [GetCustomLength(type)] of the dynamic class *)
  GetCustomLength : Track.Type_ -> Q;
  (** [Core::instance()->GetTimecodeDisplay()] *)
  GetTimecodeDisplay : Timecode.Display
}.

(** [ViewerOutput::GetCustomLength] itself: no custom length. *)
Definition ViewerOutput_GetCustomLength (type : Track.Type_) : Q := 0%Q.

(** ** Calls that leave the class *)

Inductive Cache := video_frame_cache_ | audio_playback_cache_.

Inductive Event :=
| Cache_Invalidate (c : Cache) (r : TimeRange) (job_time : Z)
| Cache_SetLength (c : Cache) (len : Q)
| Traverser_GenerateTable (out : NodeOutput) (r : TimeRange)
| emit_LengthChanged (len : Q)
| super_InvalidateCache (r : TimeRange) (from : string) (element : Z) (job_time : Z)
| super_BeginOperation
| super_EndOperation
| TimelinePoints_Load.

(** ** The node *)

(** [int] members and arguments are integers: no operation of the class
    takes one near the ends of its range. *)
Record ViewerOutput := mkViewerOutput {
  operation_stack_ : Z;
  last_length_ : Q;
  (** the standard values of the two parameter arrays, by element *)
  video_params_array : list QVariant;
  audio_params_array : list QVariant;
  (** the names of the node's output sockets *)
  outputs : gset string
}.

Definition set_operation_stack (n : Z) (s : ViewerOutput) : ViewerOutput :=
  mkViewerOutput n (last_length_ s) (video_params_array s) (audio_params_array s) (outputs s).

Definition set_last_length (q : Q) (s : ViewerOutput) : ViewerOutput :=
  mkViewerOutput (operation_stack_ s) q (video_params_array s) (audio_params_array s) (outputs s).

(** A member function: from the node's state to a result, the new state
    and the calls made, oldest first. *)
Definition M (A : Type) : Type := ViewerOutput -> A * ViewerOutput * list Event.

Definition ret {A} (a : A) : M A := fun s => (a, s, []).

Definition bind {A B} (m : M A) (k : A -> M B) : M B :=
  fun s =>
    let '(a, s1, e1) := m s in
    let '(b, s2, e2) := k a s1 in
    (b, s2, e1 ++ e2).

Definition call (e : Event) : M unit := fun s => (tt, s, [e]).
Definition read {A} (f : ViewerOutput -> A) : M A := fun s => (f s, s, []).
Definition modify (f : ViewerOutput -> ViewerOutput) : M unit := fun s => (tt, f s, []).

#[global] Instance M_ret : MRet M := @ret.
#[global] Instance M_bind : MBind M := fun A B k m => bind m k.

Definition result {A} (r : A * ViewerOutput * list Event) : A := fst (fst r).
Definition state_after {A} (r : A * ViewerOutput * list Event) : ViewerOutput := snd (fst r).
Definition calls {A} (r : A * ViewerOutput * list Event) : list Event := snd r.

Section Viewer.

Variable g : Graph.

Definition GetLength (s : ViewerOutput) : Q := last_length_ s.

(** [ViewerOutput::VerifyLength] *)
Definition VerifyLength : M unit :=
  stack ← read operation_stack_;
  if negb (stack =? 0) then ret tt else
  (* video *)
  video_length ←
    (let video_length := GetCustomLength g Track.kVideo in
     if rational.isNull video_length && IsInputConnected g kTextureInput then
       call (Traverser_GenerateTable (GetConnectedOutput g kTextureInput) (mkTimeRange 0 0)) ;;
       let t := GenerateTable g (GetConnectedOutput g kTextureInput) (mkTimeRange 0 0) in
       ret (value_rational (NodeValueTable.Get t NodeValue.kRational "length"))
     else ret video_length);
  call (Cache_SetLength video_frame_cache_ video_length) ;;
  (* audio *)
  audio_length ←
    (let audio_length := GetCustomLength g Track.kAudio in
     if rational.isNull audio_length && IsInputConnected g kSamplesInput then
       call (Traverser_GenerateTable (GetConnectedOutput g kSamplesInput) (mkTimeRange 0 0)) ;;
       let t := GenerateTable g (GetConnectedOutput g kSamplesInput) (mkTimeRange 0 0) in
       ret (value_rational (NodeValueTable.Get t NodeValue.kRational "length"))
     else ret audio_length);
  call (Cache_SetLength audio_playback_cache_ audio_length) ;;
  (* subtitle *)
  let subtitle_length := GetCustomLength g Track.kSubtitle in
  let real_length := qMax subtitle_length (qMax video_length audio_length) in
  last ← read last_length_;
  if rational.neq real_length last then
    modify (set_last_length real_length) ;;
    call (emit_LengthChanged real_length)
  else ret tt.

(** [ViewerOutput::InvalidateCache] *)
Definition InvalidateCache (range : TimeRange) (from : string) (element : Z) (job_time : Z)
  : M unit :=
  stack ← read operation_stack_;
  (if stack =? 0 then
     (if String.eqb from kTextureInput || String.eqb from kSamplesInput
         || String.eqb from kVideoParamsInput || String.eqb from kAudioParamsInput
      then
        len ← read GetLength;
        let invalidated_range :=
          mkTimeRange (qMax 0 (range_in range)) (qMin len (range_out range)) in
        if rational.neq (range_in invalidated_range) (range_out invalidated_range) then
          if String.eqb from kTextureInput || String.eqb from kVideoParamsInput then
            call (Cache_Invalidate video_frame_cache_ invalidated_range job_time)
          else
            call (Cache_Invalidate audio_playback_cache_ invalidated_range job_time)
        else ret tt
      else ret tt) ;;
     VerifyLength
   else ret tt) ;;
  call (super_InvalidateCache range from element job_time).

(** [ViewerOutput::BeginOperation] *)
Definition BeginOperation : M unit :=
  modify (fun s => set_operation_stack (operation_stack_ s + 1) s) ;;
  call super_BeginOperation.

(** [ViewerOutput::EndOperation] *)
Definition EndOperation : M unit :=
  modify (fun s => set_operation_stack (operation_stack_ s - 1) s) ;;
  call super_EndOperation.

End Viewer.

(** ** Stream registry *)

(** The parameter array behind an input, if the input is one of the two
    arrays. *)
Definition array_of (id : string) (s : ViewerOutput) : list QVariant :=
  if String.eqb id kVideoParamsInput then video_params_array s
  else if String.eqb id kAudioParamsInput then audio_params_array s
  else [].

Definition set_array (id : string) (a : list QVariant) (s : ViewerOutput) : ViewerOutput :=
  if String.eqb id kVideoParamsInput then
    mkViewerOutput (operation_stack_ s) (last_length_ s) a (audio_params_array s) (outputs s)
  else if String.eqb id kAudioParamsInput then
    mkViewerOutput (operation_stack_ s) (last_length_ s) (video_params_array s) a (outputs s)
  else s.

Definition set_outputs (o : gset string) (s : ViewerOutput) : ViewerOutput :=
  mkViewerOutput (operation_stack_ s) (last_length_ s) (video_params_array s)
                 (audio_params_array s) o.

(** Modelled from the spec: the base class's socket and array primitives
    ([Node::AddOutput], [RemoveOutput], [InputArraySize], [InputArrayResize],
    [InputArrayAppend], [InputArrayRemoveLast], [SetStandardValue]; node.cpp
    is not among the sources at hand).  Outputs are a set of names; an array grows
    by null elements at its end and shrinks from its end; every change of an
    array's size raises [InputArraySizeChanged(id, old, new)]. *)
Definition AddOutput (id : string) : M unit :=
  modify (fun s => set_outputs (outputs s ∪ {[id]}) s).

Definition RemoveOutput (id : string) : M unit :=
  modify (fun s => set_outputs (outputs s ∖ {[id]}) s).

Definition InputArraySize (id : string) : M Z :=
  read (fun s => Z.of_nat (length (array_of id s))).

Definition SetStandardValue (id : string) (value : QVariant) (index : Z) : M unit :=
  modify (fun s => set_array id (<[Z.to_nat index := value]> (array_of id s)) s).

Definition resize_array (a : list QVariant) (n : nat) : list QVariant :=
  take n a ++ replicate (n - length a) QVariant_null.

(** [for (int i = lo; i < hi; i++) body(i)] *)
Fixpoint for_each (l : list Z) (body : Z -> M unit) : M unit :=
  match l with
  | [] => ret tt
  | i :: rest => body i ;; for_each rest body
  end.

Definition for_range (lo hi : Z) (body : Z -> M unit) : M unit :=
  for_each (seqZ lo (hi - lo)) body.

(** [ViewerOutput::InputResized], the slot the constructor connects to
    [Node::InputArraySizeChanged]. *)
Definition InputResized (input : string) (old_size new_size : Z) : M unit :=
  if String.eqb input kVideoParamsInput || String.eqb input kAudioParamsInput then
    let type := if String.eqb input kVideoParamsInput then Track.kVideo else Track.kAudio in
    if old_size <? new_size then
      for_range old_size new_size
        (fun i => AddOutput (Track.Reference.ToString (Track.Reference.mk type i)))
    else if new_size <? old_size then
      for_range new_size old_size
        (fun i => RemoveOutput (Track.Reference.ToString (Track.Reference.mk type i)))
    else ret tt
  else ret tt.

Definition InputArrayResize (id : string) (size : Z) : M unit :=
  old_size ← InputArraySize id;
  if old_size =? size then ret tt else
  modify (fun s => set_array id (resize_array (array_of id s) (Z.to_nat size)) s) ;;
  (* emit InputArraySizeChanged(id, old_size, size) *)
  InputResized id old_size size.

Definition InputArrayAppend (id : string) : M unit :=
  size ← InputArraySize id;
  InputArrayResize id (size + 1).

Definition InputArrayRemoveLast (id : string) : M unit :=
  size ← InputArraySize id;
  InputArrayResize id (size - 1).

(** [ViewerOutput::AddStream] *)
Definition AddStream (type : Track.Type_) (value : QVariant) : M Z :=
  match (match type with
         | Track.kVideo => Some kVideoParamsInput
         | Track.kAudio => Some kAudioParamsInput
         | Track.kSubtitle => None
         end) with
  | None => ret (-1)
  | Some id =>
      index ← InputArraySize id;
      InputArrayAppend id ;;
      SetStandardValue id value index ;;
      ret index
  end.

(** [AddStream] for each value in turn; the indices it returned. *)
Fixpoint add_streams (type : Track.Type_) (values : list QVariant) : M (list Z) :=
  match values with
  | [] => ret []
  | v :: rest =>
      i ← AddStream type v;
      indices ← add_streams type rest;
      ret (i :: indices)
  end.

(** [InputArrayRemoveLast] [m] times. *)
Fixpoint remove_last (id : string) (m : nat) : M unit :=
  match m with
  | O => ret tt
  | S m' => InputArrayRemoveLast id ;; remove_last id m'
  end.

(** [ViewerOutput::ViewerOutput]: the members as initialised, before any
    stream exists, and the default streams added on request. *)
Definition ViewerOutput_init : ViewerOutput := mkViewerOutput 0 0 [] [] ∅.

Definition ViewerOutput_new (create_default_streams : bool) : M unit :=
  if create_default_streams then
    AddStream Track.kVideo QVariant_null ;;
    AddStream Track.kAudio QVariant_null ;;
    ret tt
  else ret tt.

(** The name of the output socket of stream [i] of a medium, and the
    sockets of the streams [lo], ..., [hi - 1]. *)
Definition socket_name (type : Track.Type_) (i : Z) : string :=
  Track.Reference.ToString (Track.Reference.mk type i).

Definition stream_sockets (type : Track.Type_) (lo hi : Z) : gset string :=
  list_to_set (socket_name type <$> seqZ lo (hi - lo)).

Definition has_output (s : ViewerOutput) (type : Track.Type_) (i : Z) : Prop :=
  socket_name type i ∈ outputs s.

Definition stream_count (s : ViewerOutput) (type : Track.Type_) : Z :=
  match type with
  | Track.kVideo => Z.of_nat (length (video_params_array s))
  | Track.kAudio => Z.of_nat (length (audio_params_array s))
  | Track.kSubtitle => 0
  end.

(** The registry's invariant: a video or audio stream index has an output
    socket exactly when the stream exists. *)
Definition registry_ok (s : ViewerOutput) : Prop :=
  forall type i, type <> Track.kSubtitle ->
    has_output s type i <-> 0 <= i < stream_count s type.

(** The array input of a medium. *)
Definition params_input (type : Track.Type_) : option string :=
  match type with
  | Track.kVideo => Some kVideoParamsInput
  | Track.kAudio => Some kAudioParamsInput
  | Track.kSubtitle => None
  end.

(** ** Duration and rate display *)

(** Modelled from the spec: the stream accessors declared in viewer.h
    ([GetVideoStreamCount], [GetVideoParams(i)] and their audio twins): the
    streams are the elements of the two parameter arrays, in order. *)
Definition GetVideoStreamCount (s : ViewerOutput) : Z :=
  Z.of_nat (length (video_params_array s)).

Definition GetAudioStreamCount (s : ViewerOutput) : Z :=
  Z.of_nat (length (audio_params_array s)).

Definition GetVideoParams (s : ViewerOutput) (i : nat) : VideoParams.t :=
  value_VideoParams (nth i (video_params_array s) QVariant_null).

Definition GetAudioParams (s : ViewerOutput) (i : nat) : AudioParams.t :=
  value_AudioParams (nth i (audio_params_array s) QVariant_null).

(** [for (int i = 0; i < sz; i++) { vp = GetVideoParams(i); if (vp.enabled()) return vp; }]
    with [i] counting up from [i] for [fuel] more streams. *)
Fixpoint first_enabled_video (s : ViewerOutput) (i fuel : nat) : VideoParams.t :=
  match fuel with
  | O => VideoParams.default
  | S fuel' =>
      let vp := GetVideoParams s i in
      if VideoParams.enabled vp then vp else first_enabled_video s (S i) fuel'
  end.

Fixpoint first_enabled_audio (s : ViewerOutput) (i fuel : nat) : AudioParams.t :=
  match fuel with
  | O => AudioParams.default
  | S fuel' =>
      let ap := GetAudioParams s i in
      if AudioParams.enabled ap then ap else first_enabled_audio s (S i) fuel'
  end.

(** [ViewerOutput::GetFirstEnabledVideoStream] *)
Definition GetFirstEnabledVideoStream (s : ViewerOutput) : VideoParams.t :=
  first_enabled_video s 0 (Z.to_nat (GetVideoStreamCount s)).

(** [ViewerOutput::GetFirstEnabledAudioStream] *)
Definition GetFirstEnabledAudioStream (s : ViewerOutput) : AudioParams.t :=
  first_enabled_audio s 0 (Z.to_nat (GetAudioStreamCount s)).

(** [ViewerOutput::HasEnabledVideoStreams] *)
Definition HasEnabledVideoStreams (s : ViewerOutput) : bool :=
  VideoParams.is_valid (GetFirstEnabledVideoStream s).

(** [ViewerOutput::HasEnabledAudioStreams] *)
Definition HasEnabledAudioStreams (s : ViewerOutput) : bool :=
  AudioParams.is_valid (GetFirstEnabledAudioStream s).

(** The strings the two queries can return, as the calls that build them:
    the formatters of [Timecode] and the two translated patterns are not
    among the sources at hand. *)
Inductive Timestamp :=
| timestamp (t : Z)
| rescale_timestamp_ceil (t : Z) (source dest : Q).

Inductive QString :=
| QString_null
| timestamp_to_timecode (t : Timestamp) (timebase : Q) (display : Timecode.Display)
| tr_FPS (frame_rate : Q)
| tr_Hz (sample_rate : Z).

Definition Display_eqb (a b : Timecode.Display) : bool :=
  match a, b with
  | Timecode.kTimecodeDropFrame, Timecode.kTimecodeDropFrame
  | Timecode.kTimecodeNonDropFrame, Timecode.kTimecodeNonDropFrame
  | Timecode.kTimecodeSeconds, Timecode.kTimecodeSeconds
  | Timecode.kTimecodeFrames, Timecode.kTimecodeFrames
  | Timecode.kTimecodeMilliseconds, Timecode.kTimecodeMilliseconds => true
  | _, _ => false
  end.

(** [ViewerOutput::duration] *)
Definition duration (g : Graph) (s : ViewerOutput) : QString :=
  (* Try video first *)
  let video := GetFirstEnabledVideoStream s in
  if VideoParams.is_valid video
     && negb (VideoParams.Type_eqb (VideoParams.video_type video) VideoParams.kVideoTypeStill)
  then
    let frame_rate_timebase := VideoParams.frame_rate_as_time_base video in
    timestamp_to_timecode
      (rescale_timestamp_ceil (VideoParams.duration video) (VideoParams.time_base video)
                              frame_rate_timebase)
      frame_rate_timebase
      (GetTimecodeDisplay g)
  else
    (* Try audio second *)
    let audio := GetFirstEnabledAudioStream s in
    if AudioParams.is_valid audio then
      let display := GetTimecodeDisplay g in
      let display :=
        if Display_eqb display Timecode.kTimecodeDropFrame
           || Display_eqb display Timecode.kTimecodeNonDropFrame
        then Timecode.kTimecodeSeconds else display in
      timestamp_to_timecode (timestamp (AudioParams.duration audio))
                            (AudioParams.time_base audio) display
    else
      QString_null.

(** [ViewerOutput::rate] *)
Definition rate (s : ViewerOutput) : QString :=
  if HasEnabledVideoStreams s then
    let video_stream := GetFirstEnabledVideoStream s in
    if negb (VideoParams.Type_eqb (VideoParams.video_type video_stream)
                                  VideoParams.kVideoTypeStill)
    then tr_FPS (VideoParams.frame_rate video_stream)
    else QString_null
  else if HasEnabledAudioStreams s then
    let audio_stream := GetFirstEnabledAudioStream s in
    tr_Hz (AudioParams.sample_rate audio_stream)
  else QString_null.

(** What the two queries are said to return. *)
Module Display.

(** the video stream decides: one is enabled and it is not a still image *)
Definition video_applies (s : ViewerOutput) : bool :=
  HasEnabledVideoStreams s
  && negb (VideoParams.Type_eqb (VideoParams.video_type (GetFirstEnabledVideoStream s))
                                VideoParams.kVideoTypeStill).

Definition video_duration (g : Graph) (s : ViewerOutput) : QString :=
  let video := GetFirstEnabledVideoStream s in
  timestamp_to_timecode
    (rescale_timestamp_ceil (VideoParams.duration video) (VideoParams.time_base video)
                            (VideoParams.frame_rate_as_time_base video))
    (VideoParams.frame_rate_as_time_base video) (GetTimecodeDisplay g).

Definition video_rate (s : ViewerOutput) : QString :=
  tr_FPS (VideoParams.frame_rate (GetFirstEnabledVideoStream s)).

(** a timecode display falls back to seconds *)
Definition audio_display (g : Graph) : Timecode.Display :=
  match GetTimecodeDisplay g with
  | Timecode.kTimecodeDropFrame | Timecode.kTimecodeNonDropFrame => Timecode.kTimecodeSeconds
  | d => d
  end.

Definition audio_duration (g : Graph) (s : ViewerOutput) : QString :=
  let audio := GetFirstEnabledAudioStream s in
  timestamp_to_timecode (timestamp (AudioParams.duration audio))
                        (AudioParams.time_base audio) (audio_display g).

Definition audio_rate (s : ViewerOutput) : QString :=
  tr_Hz (AudioParams.sample_rate (GetFirstEnabledAudioStream s)).

End Display.

(** ** Custom state *)

(** The XML reader as far as [LoadCustom] looks at it: the name of the
    current element and what is left to read. *)
Record QXmlStreamReader := mkReader { reader_name : string; reader_rest : list string }.

Section LoadCustom.

Context {XMLNodeData : Type}.

Record LoadCustomArgs := mkLoadCustomArgs {
  arg_reader : QXmlStreamReader;
  arg_xml_node_data : XMLNodeData;
  arg_version : Z;
  arg_cancelled : bool
}.

(** What one activation of a function does last: return a value, or call
    [LoadCustom] and return what that call returns. *)
Inductive Activation :=
| Returns (value : bool)
| Calls_LoadCustom (args : LoadCustomArgs).

(** The body of [ViewerOutput::LoadCustom], for one activation. *)
Definition LoadCustom_body (a : LoadCustomArgs) : M Activation :=
  if String.eqb (reader_name (arg_reader a)) "points" then
    call TimelinePoints_Load ;;
    ret (Returns true)
  else
    ret (Calls_LoadCustom
           (mkLoadCustomArgs (arg_reader a) (arg_xml_node_data a) (arg_version a)
                             (arg_cancelled a))).

(** [ViewerOutput::LoadCustom], nested at most [depth] activations deep;
    [None] when the innermost of them has not returned. *)
Fixpoint LoadCustom (depth : nat) (a : LoadCustomArgs) : M (option bool) :=
  match depth with
  | O => ret None
  | S depth' =>
      act ← LoadCustom_body a;
      match act with
      | Returns value => ret (Some value)
      | Calls_LoadCustom a' => LoadCustom depth' a'
      end
  end.

End LoadCustom.

(** ** Interval cache *)

Module IntervalCache.

(** Modelled from the spec: the interval cache behind [video_frame_cache_]
    and [audio_playback_cache_] (render/playbackcache and its subclasses are
    not among the sources at hand).  The cache maps time ranges to a validity
    marker plus the job time of the write, and holds a declared length.
    [Invalidate] marks the range clamped to [0, declared length) as not
    rendered and does nothing when the clamped range is degenerate;
    [Validate] marks the range as rendered.  The job time resolves races: at
    a point, the write carrying the larger job time stands, whichever was
    made first, and of two writes with the same job time the later one. *)
Record Marker := mkMarker { valid : bool; job_time : Z }.

Record Entry := mkEntry { range : TimeRange; marker : Marker }.

(** The writes, the most recent first. *)
Record t := mk { length : Q; entries : list Entry }.

Definition empty (len : Q) : t := mk len [].

Definition clamp (c : t) (r : TimeRange) : TimeRange :=
  mkTimeRange (qMax 0 (range_in r)) (qMin (length c) (range_out r)).

Definition write (r : TimeRange) (m : Marker) (c : t) : t :=
  mk (length c) (mkEntry r m :: entries c).

(** Modelled from the spec: [Invalidate(range, job_time)] marks the range,
    clamped to [0, declared length), as not rendered; a degenerate clamped
    range is a no-op. *)
Definition Invalidate (r : TimeRange) (job_time : Z) (c : t) : t :=
  let r' := clamp c r in
  if Qeq_bool (range_in r') (range_out r') then c
  else write r' (mkMarker false job_time) c.

(** Modelled from the spec: [Validate(range, job_time)] marks the range as
    holding usable content, subject to the staleness rule that [standing]
    applies. *)
Definition Validate (r : TimeRange) (job_time : Z) (c : t) : t :=
  write r (mkMarker true job_time) c.

(** Modelled from the spec: the marker in force at a point, if the point
    was ever written.  A newer write replaces what stands at the point
    unless that carries a later job time. *)
Fixpoint standing (es : list Entry) (p : Q) : option Marker :=
  match es with
  | [] => None
  | e :: older =>
      match standing older p with
      | None => if TimeRange_contains_b (range e) p then Some (marker e) else None
      | Some m =>
          if TimeRange_contains_b (range e) p && (job_time m <=? job_time (marker e))
          then Some (marker e) else Some m
      end
  end.

Definition marker_at (c : t) (p : Q) : option Marker := standing (entries c) p.

(** A point never written is not rendered. *)
Definition IsValid (c : t) (p : Q) : bool :=
  match marker_at c p with
  | Some m => valid m
  | None => false
  end.



End IntervalCache.

(** ** What the Length Resolver is said to compute *)

Module LengthResolver.

(** The "length" attribute read back from the producer connected to
    [input], evaluated at the zero-length range. *)
Definition probe_length (g : Graph) (input : string) : Q :=
  value_rational
    (NodeValueTable.Get (GenerateTable g (GetConnectedOutput g input) (mkTimeRange 0 0))
                        NodeValue.kRational "length").

(** Does the resolver have to ask the graph for this medium? *)
Definition probes (g : Graph) (type : Track.Type_) (input : string) : bool :=
  rational.isNull (GetCustomLength g type) && IsInputConnected g input.

(** A candidate: the declared custom length, or the probed one. *)
Definition candidate_length (g : Graph) (type : Track.Type_) (input : string) : Q :=
  if probes g type input then probe_length g input else GetCustomLength g type.

Definition video_length (g : Graph) : Q := candidate_length g Track.kVideo kTextureInput.
Definition audio_length (g : Graph) : Q := candidate_length g Track.kAudio kSamplesInput.
Definition subtitle_length (g : Graph) : Q := GetCustomLength g Track.kSubtitle.

Definition resolved_length (g : Graph) : Q :=
  qMax (subtitle_length g) (qMax (video_length g) (audio_length g)).

(** The traversals one resolution makes for a medium. *)
Definition probe_calls (g : Graph) (type : Track.Type_) (input : string) : list Event :=
  if probes g type input
  then [Traverser_GenerateTable (GetConnectedOutput g input) (mkTimeRange 0 0)]
  else [].

(** The notification one resolution makes against a memoized length. *)
Definition change_calls (g : Graph) (last : Q) : list Event :=
  if rational.neq (resolved_length g) last then [emit_LengthChanged (resolved_length g)] else [].

End LengthResolver.

(** ** Reading a call sequence *)

Definition is_Invalidate (e : Event) : bool :=
  match e with Cache_Invalidate _ _ _ => true | _ => false end.

Definition is_SetLength (e : Event) : bool :=
  match e with Cache_SetLength _ _ => true | _ => false end.

Definition is_GenerateTable (e : Event) : bool :=
  match e with Traverser_GenerateTable _ _ => true | _ => false end.

Definition is_LengthChanged (e : Event) : bool :=
  match e with emit_LengthChanged _ => true | _ => false end.

Definition is_super (e : Event) : bool :=
  match e with
  | super_InvalidateCache _ _ _ _ | super_BeginOperation | super_EndOperation => true
  | _ => false
  end.

(** A call that changes an interval cache. *)
Definition is_cache_mutation (e : Event) : bool := is_Invalidate e || is_SetLength e.

(** A call that belongs to a length recomputation. *)
Definition is_length_recompute (e : Event) : bool :=
  is_SetLength e || is_GenerateTable e || is_LengthChanged e.

Definition count (p : Event -> bool) (l : list Event) : nat := length (List.filter p l).

(** The four sockets the viewer tracks. *)
Definition is_tracked (from : string) : bool :=
  String.eqb from kTextureInput || String.eqb from kSamplesInput
  || String.eqb from kVideoParamsInput || String.eqb from kAudioParamsInput.

Definition is_video_socket (from : string) : bool :=
  String.eqb from kTextureInput || String.eqb from kVideoParamsInput.

Definition is_audio_socket (from : string) : bool :=
  String.eqb from kSamplesInput || String.eqb from kAudioParamsInput.

(** The range [InvalidateCache] is said to invalidate. *)
Definition clamped_range (len : Q) (range : TimeRange) : TimeRange :=
  mkTimeRange (qMax 0 (range_in range)) (qMin len (range_out range)).

Definition degenerate (r : TimeRange) : Prop := (range_in r == range_out r)%Q.

(** ** A small project to run the definitions on *)

Module Scenario.

Definition producer_video : NodeOutput := mkNodeOutput 1 "output".
Definition producer_audio : NodeOutput := mkNodeOutput 2 "output".

Definition table_with_length (q : Q) : NodeValueTable.t :=
  [NodeValue.mk NodeValue.kRational (QVariant_rational q) "length"].

(** Texture and samples are both connected; the video producer is ten
    seconds long, the audio producer twelve and a half. *)
Definition graph : Graph :=
  mkGraph
    (fun input => String.eqb input kTextureInput || String.eqb input kSamplesInput)
    (fun input => if String.eqb input kTextureInput then producer_video else producer_audio)
    (fun out _ => if Nat.eqb (output_node out) 1 then table_with_length 10
                  else table_with_length (25 # 2))
    ViewerOutput_GetCustomLength
    Timecode.kTimecodeDropFrame.

(** Nothing is connected. *)
Definition unconnected : Graph :=
  mkGraph (fun _ => false) (fun _ => mkNodeOutput 0 "")
          (fun _ _ => []) ViewerOutput_GetCustomLength Timecode.kTimecodeDropFrame.

(** A node right after construction without default streams. *)
Definition fresh : ViewerOutput := state_after (ViewerOutput_new false ViewerOutput_init).

(** The same node inside one [BeginOperation]. *)
Definition batching : ViewerOutput := state_after (BeginOperation fresh).

(** A still image with a twelve and a half second audio stream at 48 kHz,
    and a 24 fps video of 240 frames with the same audio. *)
Definition still_image : VideoParams.t :=
  VideoParams.mk 1920 1080 (1 # 24) 0 1 VideoParams.kVideoTypeStill true.

Definition movie : VideoParams.t :=
  VideoParams.mk 1920 1080 (1 # 24) 24 240 VideoParams.kVideoTypeVideo true.

Definition sound : AudioParams.t :=
  AudioParams.mk 48000 3 (1 # 48000) 600000 true.

Definition still_with_audio : ViewerOutput :=
  mkViewerOutput 0 (25 # 2) [QVariant_VideoParams still_image] [QVariant_AudioParams sound]
                 {[ "v:0"; "a:0" ]}.

Definition movie_with_audio : ViewerOutput :=
  mkViewerOutput 0 (25 # 2) [QVariant_VideoParams movie] [QVariant_AudioParams sound]
                 {[ "v:0"; "a:0" ]}.

Definition audio_only : ViewerOutput :=
  mkViewerOutput 0 (25 # 2) [] [QVariant_AudioParams sound] {[ "a:0" ]}.

Definition still_only : ViewerOutput :=
  mkViewerOutput 0 0 [QVariant_VideoParams still_image] [] {[ "v:0" ]}.

End Scenario.

(** The cache invalidation one [InvalidateCache] makes, read off the four
    socket names. *)
Definition invalidate_calls (s : ViewerOutput) (range : TimeRange) (from : string)
    (job_time : Z) : list Event :=
  if is_tracked from then
    let r := clamped_range (GetLength s) range in
    if rational.neq (range_in r) (range_out r) then
      [Cache_Invalidate (if is_video_socket from then video_frame_cache_
                         else audio_playback_cache_) r job_time]
    else []
  else [].

(** ** A batch of changes *)

(** One "this region of this input changed" notification, together with
    the graph as it is when the notification arrives. *)
Record Invalidation := mkInvalidation {
  inv_graph : Graph;
  inv_range : TimeRange;
  inv_from : string;
  inv_element : Z;
  inv_job_time : Z
}.

Definition forwarded (i : Invalidation) : Event :=
  super_InvalidateCache (inv_range i) (inv_from i) (inv_element i) (inv_job_time i).

Fixpoint deliver (l : list Invalidation) : M unit :=
  match l with
  | [] => ret tt
  | i :: rest =>
      InvalidateCache (inv_graph i) (inv_range i) (inv_from i) (inv_element i)
                      (inv_job_time i) ;;
      deliver rest
  end.

(** The notifications arrive between [BeginOperation] and [EndOperation]. *)
Definition batch (l : list Invalidation) : M unit :=
  BeginOperation ;; deliver l ;; EndOperation.

(** C5 as it is written, at one batch: leaving the batch re-verifies the
    length, so the node ends up with the length resolved in the graph [g]
    it is left in, having notified at most once. *)
Definition batch_reverifies (g : Graph) (l : list Invalidation) (s : ViewerOutput) : Prop :=
  let r := batch l s in
  (GetLength (state_after r) == LengthResolver.resolved_length g)%Q
  /\ (count is_LengthChanged (calls r) <= 1)%nat.

Module BatchScenario.

(** During the batch the texture and samples inputs get connected. *)
Definition changes : list Invalidation :=
  [mkInvalidation Scenario.graph (mkTimeRange 0 10) kTextureInput 0 1;
   mkInvalidation Scenario.graph (mkTimeRange 0 (25 # 2)) kSamplesInput 0 2].

End BatchScenario.


(** ** Enabled streams *)

(** The loop of [ViewerOutput::GetEnabledVideoStreams], with [i] counting
    up for [fuel] more streams; [streams.append(vp)] keeps the order. *)
Fixpoint enabled_video_from (s : ViewerOutput) (i fuel : nat) : list VideoParams.t :=
  match fuel with
  | O => []
  | S fuel' =>
      let vp := GetVideoParams s i in
      if VideoParams.enabled vp then vp :: enabled_video_from s (S i) fuel'
      else enabled_video_from s (S i) fuel'
  end.

Fixpoint enabled_audio_from (s : ViewerOutput) (i fuel : nat) : list AudioParams.t :=
  match fuel with
  | O => []
  | S fuel' =>
      let ap := GetAudioParams s i in
      if AudioParams.enabled ap then ap :: enabled_audio_from s (S i) fuel'
      else enabled_audio_from s (S i) fuel'
  end.

(** [ViewerOutput::GetEnabledVideoStreams] *)
Definition GetEnabledVideoStreams (s : ViewerOutput) : list VideoParams.t :=
  enabled_video_from s 0 (Z.to_nat (GetVideoStreamCount s)).

(** [ViewerOutput::GetEnabledAudioStreams] *)
Definition GetEnabledAudioStreams (s : ViewerOutput) : list AudioParams.t :=
  enabled_audio_from s 0 (Z.to_nat (GetAudioStreamCount s)).

(** The two loops of [ViewerOutput::GetEnabledStreamsAsReferences]. *)
Fixpoint video_refs_from (s : ViewerOutput) (i fuel : nat) : list Track.Reference.t :=
  match fuel with
  | O => []
  | S fuel' =>
      if VideoParams.enabled (GetVideoParams s i)
      then Track.Reference.mk Track.kVideo (Z.of_nat i) :: video_refs_from s (S i) fuel'
      else video_refs_from s (S i) fuel'
  end.

Fixpoint audio_refs_from (s : ViewerOutput) (i fuel : nat) : list Track.Reference.t :=
  match fuel with
  | O => []
  | S fuel' =>
      if AudioParams.enabled (GetAudioParams s i)
      then Track.Reference.mk Track.kAudio (Z.of_nat i) :: audio_refs_from s (S i) fuel'
      else audio_refs_from s (S i) fuel'
  end.

(** [ViewerOutput::GetEnabledStreamsAsReferences] *)
Definition GetEnabledStreamsAsReferences (s : ViewerOutput) : list Track.Reference.t :=
  video_refs_from s 0 (Z.to_nat (GetVideoStreamCount s))
  ++ audio_refs_from s 0 (Z.to_nat (GetAudioStreamCount s)).

(** The streams of the two arrays as descriptors, in order. *)
Definition video_streams (s : ViewerOutput) : list VideoParams.t :=
  List.map value_VideoParams (video_params_array s).

Definition audio_streams (s : ViewerOutput) : list AudioParams.t :=
  List.map value_AudioParams (audio_params_array s).

(** The indices below [n] that satisfy [p], in increasing order. *)
Definition indices_where (p : nat -> bool) (n : nat) : list nat :=
  List.filter p (List.seq 0 n).

(** ** Nested operations *)

(** [m] run [n] times in a row. *)
Fixpoint times (n : nat) (m : M unit) : M unit :=
  match n with
  | O => ret tt
  | S n' => m ;; times n' m
  end.

(** ** Disconnections and the destructor *)

Module Connection.

(** The calls made while the node is disconnected: a call as before, the
    signal [TextureInputChanged], or the base class's handler. *)
Inductive Call :=
| node_call (e : Event)
| emit_TextureInputChanged
| super_InputDisconnectedEvent (input : string) (element : Z) (output : NodeOutput).

(** [ViewerOutput::InputDisconnectedEvent] *)
Definition InputDisconnectedEvent (input : string) (element : Z) (output : NodeOutput)
    : list Call :=
  (if String.eqb input kTextureInput then [emit_TextureInputChanged] else [])
  ++ [super_InputDisconnectedEvent input element output].

(** Modelled from the spec: what [Node::DisconnectAll()] makes reach the
    node (the base class is outside the files at hand).  The graph engine
    notifies a disconnection of an input through [InputDisconnectedEvent] and
    a change of an input through [InvalidateCache]; [DisconnectAll] is any
    sequence of the two, each [InvalidateCache] with the graph as it is
    then. *)
Inductive Notification :=
| disconnected (input : string) (element : Z) (output : NodeOutput)
| invalidated (i : Invalidation).

Definition notify (n : Notification) (s : ViewerOutput) : ViewerOutput * list Call :=
  match n with
  | disconnected input element output => (s, InputDisconnectedEvent input element output)
  | invalidated i =>
      let r := InvalidateCache (inv_graph i) (inv_range i) (inv_from i) (inv_element i)
                               (inv_job_time i) s in
      (state_after r, List.map node_call (calls r))
  end.

Fixpoint DisconnectAll (l : list Notification) (s : ViewerOutput)
    : ViewerOutput * list Call :=
  match l with
  | [] => (s, [])
  | n :: rest =>
      let '(s1, c1) := notify n s in
      let '(s2, c2) := DisconnectAll rest s1 in
      (s2, c1 ++ c2)
  end.

(** [ViewerOutput::~ViewerOutput]: [BeginOperation(); DisconnectAll();
    EndOperation();] *)
Definition ViewerOutput_delete (l : list Notification) (s : ViewerOutput)
    : ViewerOutput * list Call :=
  let b := BeginOperation s in
  let '(s2, c2) := DisconnectAll l (state_after b) in
  let e := EndOperation s2 in
  (state_after e, List.map node_call (calls b) ++ c2 ++ List.map node_call (calls e)).

(** What a notification comes to while the operation stack is not zero. *)
Definition suppressed (n : Notification) : list Call :=
  match n with
  | disconnected input element output => InputDisconnectedEvent input element output
  | invalidated i => [node_call (forwarded i)]
  end.

Definition is_node_call (p : Event -> bool) (c : Call) : bool :=
  match c with node_call e => p e | _ => false end.

Definition is_TextureInputChanged (c : Call) : bool :=
  match c with emit_TextureInputChanged => true | _ => false end.

Definition disconnects_texture (n : Notification) : bool :=
  match n with
  | disconnected input _ _ => String.eqb input kTextureInput
  | invalidated _ => false
  end.

Definition is_invalidated (n : Notification) : bool :=
  match n with invalidated _ => true | disconnected _ _ _ => false end.

End Connection.

(** ** Parameter changes *)

Module ParamsChanged.

(** Modelled from the spec: the interlacing mode of a video descriptor
    ([VideoParams::Interlacing] is declared outside the files at hand); the
    handler only compares two modes. *)
Inductive Interlacing := kInterlaceNone | kInterlacedTopFirst | kInterlacedBottomFirst.

Definition Interlacing_eqb (a b : Interlacing) : bool :=
  match a, b with
  | kInterlaceNone, kInterlaceNone
  | kInterlacedTopFirst, kInterlacedTopFirst
  | kInterlacedBottomFirst, kInterlacedBottomFirst => true
  | _, _ => false
  end.

(** Modelled from the spec: a video descriptor together with its pixel
    aspect ratio and interlacing mode, the two members that only
    [InputValueChangedEvent] reads. *)
Record Params := mkParams {
  params : VideoParams.t;
  pixel_aspect_ratio : Q;
  interlacing : Interlacing
}.

Definition width (p : Params) : Z := VideoParams.width (params p).
Definition height (p : Params) : Z := VideoParams.height (params p).
Definition frame_rate (p : Params) : Q := VideoParams.frame_rate (params p).
Definition frame_rate_as_time_base (p : Params) : Q :=
  VideoParams.frame_rate_as_time_base (params p).

(** The signals and calls of the handler, in program order. *)
Inductive Call :=
| emit_SizeChanged (width height : Z)
| emit_PixelAspectChanged (ratio : Q)
| emit_InterlacingChanged (mode : Interlacing)
| video_frame_cache_SetTimebase (timebase : Q)
| emit_FrameRateChanged (rate : Q)
| emit_VideoParamsChanged
| emit_AudioParamsChanged
| audio_playback_cache_SetParameters (ap : AudioParams.t)
| super_InputValueChangedEvent (input : string) (element : Z).

(** What the handler reads from the node: element 0 of the two arrays. *)
Record Current := mkCurrent {
  GetVideoParams : Params;
  GetAudioParams : AudioParams.t
}.

Definition when (b : bool) (l : list Call) : list Call := if b then l else [].

(** [ViewerOutput::InputValueChangedEvent]: from [cached_video_params_] to
    its new value and the calls made. *)
Definition InputValueChangedEvent (now : Current) (input : string) (element : Z)
    (cached_video_params_ : Params) : Params * list Call :=
  let '(cached, handled) :=
    if element =? 0 then
      if String.eqb input kVideoParamsInput then
        let new_video_params := GetVideoParams now in
        let size_changed :=
          negb (width cached_video_params_ =? width new_video_params)
          || negb (height cached_video_params_ =? height new_video_params) in
        let frame_rate_changed :=
          rational.neq (frame_rate cached_video_params_) (frame_rate new_video_params) in
        let pixel_aspect_changed :=
          rational.neq (pixel_aspect_ratio cached_video_params_)
                       (pixel_aspect_ratio new_video_params) in
        let interlacing_changed :=
          negb (Interlacing_eqb (interlacing cached_video_params_)
                                (interlacing new_video_params)) in
        (new_video_params,
         when size_changed
              [emit_SizeChanged (width new_video_params) (height new_video_params)]
         ++ when pixel_aspect_changed
              [emit_PixelAspectChanged (pixel_aspect_ratio new_video_params)]
         ++ when interlacing_changed
              [emit_InterlacingChanged (interlacing new_video_params)]
         ++ when frame_rate_changed
              [video_frame_cache_SetTimebase (frame_rate_as_time_base new_video_params);
               emit_FrameRateChanged (frame_rate new_video_params)]
         ++ [emit_VideoParamsChanged])
      else if String.eqb input kAudioParamsInput then
        (cached_video_params_,
         [emit_AudioParamsChanged; audio_playback_cache_SetParameters (GetAudioParams now)])
      else (cached_video_params_, [])
    else (cached_video_params_, []) in
  (cached, handled ++ [super_InputValueChangedEvent input element]).

Definition is_change_signal (c : Call) : bool :=
  match c with
  | emit_SizeChanged _ _ | emit_PixelAspectChanged _ | emit_InterlacingChanged _
  | video_frame_cache_SetTimebase _ | emit_FrameRateChanged _ => true
  | _ => false
  end.

End ParamsChanged.

Module ExtraScenario.

(** Two streams of which the first is disabled, and a zero-area enabled
    stream in front of a valid one. *)
Definition disabled_movie : VideoParams.t :=
  VideoParams.mk 1280 720 (1 # 30) 30 300 VideoParams.kVideoTypeVideo false.

Definition empty_frame : VideoParams.t :=
  VideoParams.mk 0 0 (1 # 24) 24 0 VideoParams.kVideoTypeVideo true.

Definition second_enabled : ViewerOutput :=
  mkViewerOutput 0 0
    [QVariant_VideoParams disabled_movie; QVariant_VideoParams Scenario.movie]
    [QVariant_AudioParams Scenario.sound]
    {[ "v:0"; "v:1"; "a:0" ]}.

Definition shadowed : ViewerOutput :=
  mkViewerOutput 0 0
    [QVariant_VideoParams empty_frame; QVariant_VideoParams Scenario.movie] [] {[ "v:0"; "v:1" ]}.

(** A producer that reports a negative length. *)
Definition negative : Graph :=
  mkGraph (fun input => String.eqb input kTextureInput)
          (fun _ => Scenario.producer_video)
          (fun _ _ => Scenario.table_with_length (-3))
          ViewerOutput_GetCustomLength Timecode.kTimecodeSeconds.

(** Tearing down a node whose texture and samples inputs are connected. *)
Definition teardown : list Connection.Notification :=
  [Connection.disconnected kTextureInput (-1) Scenario.producer_video;
   Connection.invalidated
     (mkInvalidation Scenario.unconnected (mkTimeRange 0 10) kTextureInput (-1) 1);
   Connection.disconnected kSamplesInput (-1) Scenario.producer_audio;
   Connection.invalidated
     (mkInvalidation Scenario.unconnected (mkTimeRange 0 (25 # 2)) kSamplesInput (-1) 2)].

Definition hd_params : ParamsChanged.Params :=
  ParamsChanged.mkParams Scenario.movie 1 ParamsChanged.kInterlaceNone.

Definition sd_params : ParamsChanged.Params :=
  ParamsChanged.mkParams disabled_movie 1 ParamsChanged.kInterlaceNone.

End ExtraScenario.
(** ** rational and qMax / qMin *)

Lemma rational_lt_iff a b : rational.lt a b = true <-> (a < b)%Q.
Proof.
  unfold rational.lt. rewrite Qlt_alt. destruct (a ?= b)%Q; split; congruence.
Qed.

Lemma rational_lt_false a b : rational.lt a b = false <-> (b <= a)%Q.
Proof.
  rewrite <- not_true_iff_false, rational_lt_iff. split.
  - apply Qnot_lt_le.
  - apply Qle_not_lt.
Qed.

Lemma rational_neq_true a b : rational.neq a b = true <-> ~ (a == b)%Q.
Proof.
  unfold rational.neq. rewrite negb_true_iff, <- not_true_iff_false, Qeq_bool_iff. tauto.
Qed.

Lemma rational_neq_false a b : rational.neq a b = false <-> (a == b)%Q.
Proof.
  unfold rational.neq. rewrite negb_false_iff. apply Qeq_bool_iff.
Qed.

Lemma qMax_cases a b : (qMax a b = a /\ (b <= a)%Q) \/ (qMax a b = b /\ (a < b)%Q).
Proof.
  unfold qMax. destruct (rational.lt a b) eqn:E.
  - right. split; [reflexivity | now apply rational_lt_iff].
  - left. split; [reflexivity | now apply rational_lt_false].
Qed.

Lemma qMax_ge_l a b : (a <= qMax a b)%Q.
Proof.
  destruct (qMax_cases a b) as [[-> _] | [-> H]]; [apply Qle_refl | now apply Qlt_le_weak].
Qed.

Lemma qMax_ge_r a b : (b <= qMax a b)%Q.
Proof.
  destruct (qMax_cases a b) as [[-> H] | [-> _]]; [exact H | apply Qle_refl].
Qed.

Lemma qMin_cases a b : (qMin a b = a /\ (a < b)%Q) \/ (qMin a b = b /\ (b <= a)%Q).
Proof.
  unfold qMin. destruct (rational.lt a b) eqn:E.
  - left. split; [reflexivity | now apply rational_lt_iff].
  - right. split; [reflexivity | now apply rational_lt_false].
Qed.

(** ** VerifyLength, step by step *)

Lemma VerifyLength_suppressed g s :
  operation_stack_ s <> 0 -> VerifyLength g s = (tt, s, []).
Proof.
  intros H. unfold VerifyLength, mbind, M_bind, bind, read; cbn.
  apply Z.eqb_neq in H. now rewrite H.
Qed.

Lemma VerifyLength_run g s :
  operation_stack_ s = 0 ->
  VerifyLength g s =
    (tt,
     (if rational.neq (LengthResolver.resolved_length g) (last_length_ s)
      then set_last_length (LengthResolver.resolved_length g) s else s),
     LengthResolver.probe_calls g Track.kVideo kTextureInput
       ++ [Cache_SetLength video_frame_cache_ (LengthResolver.video_length g)]
       ++ LengthResolver.probe_calls g Track.kAudio kSamplesInput
       ++ [Cache_SetLength audio_playback_cache_ (LengthResolver.audio_length g)]
       ++ LengthResolver.change_calls g (last_length_ s)).
Proof.
  intros H.
  unfold VerifyLength, mbind, M_bind, bind, read, call, modify, ret; cbn.
  rewrite H; cbn.
  unfold LengthResolver.change_calls, LengthResolver.resolved_length,
    LengthResolver.subtitle_length, LengthResolver.video_length,
    LengthResolver.audio_length, LengthResolver.candidate_length,
    LengthResolver.probe_calls, LengthResolver.probes, LengthResolver.probe_length.
  destruct (rational.isNull (GetCustomLength g Track.kVideo) && IsInputConnected g kTextureInput);
  destruct (rational.isNull (GetCustomLength g Track.kAudio) && IsInputConnected g kSamplesInput);
  cbn;
  match goal with |- context [rational.neq ?a ?b] => destruct (rational.neq a b) end;
  reflexivity.
Qed.

Example VerifyLength_scenario :
  VerifyLength Scenario.graph Scenario.fresh =
    (tt, set_last_length (25 # 2) Scenario.fresh,
     [Traverser_GenerateTable Scenario.producer_video (mkTimeRange 0 0);
      Cache_SetLength video_frame_cache_ 10;
      Traverser_GenerateTable Scenario.producer_audio (mkTimeRange 0 0);
      Cache_SetLength audio_playback_cache_ (25 # 2);
      emit_LengthChanged (25 # 2)]).
Proof. reflexivity. Qed.

Lemma resolved_length_is_max g :
  let v := LengthResolver.video_length g in
  let a := LengthResolver.audio_length g in
  let t := LengthResolver.subtitle_length g in
  let r := LengthResolver.resolved_length g in
  ((v <= r)%Q /\ (a <= r)%Q /\ (t <= r)%Q) /\ (r = v \/ r = a \/ r = t).
Proof.
  cbn zeta. unfold LengthResolver.resolved_length.
  set (v := LengthResolver.video_length g).
  set (a := LengthResolver.audio_length g).
  set (t := LengthResolver.subtitle_length g).
  split.
  - repeat split.
    + eapply Qle_trans; [apply (qMax_ge_l v a) | apply qMax_ge_r].
    + eapply Qle_trans; [apply (qMax_ge_r v a) | apply qMax_ge_r].
    + apply qMax_ge_l.
  - destruct (qMax_cases t (qMax v a)) as [[-> _] | [-> _]]; [auto |].
    destruct (qMax_cases v a) as [[-> _] | [-> _]]; auto.
Qed.

Lemma filter_SetLength_probe_calls g ty input :
  List.filter is_SetLength (LengthResolver.probe_calls g ty input) = [].
Proof. unfold LengthResolver.probe_calls. now destruct (LengthResolver.probes g ty input). Qed.

Lemma filter_SetLength_change_calls g last :
  List.filter is_SetLength (LengthResolver.change_calls g last) = [].
Proof.
  unfold LengthResolver.change_calls.
  now destruct (rational.neq (LengthResolver.resolved_length g) last).
Qed.

Lemma filter_SetLength_VerifyLength g s :
  operation_stack_ s = 0 ->
  List.filter is_SetLength (calls (VerifyLength g s)) =
    [Cache_SetLength video_frame_cache_ (LengthResolver.video_length g);
     Cache_SetLength audio_playback_cache_ (LengthResolver.audio_length g)].
Proof.
  intros H. rewrite (VerifyLength_run g s H). unfold calls; cbn [snd].
  rewrite !List.filter_app, !filter_SetLength_probe_calls, filter_SetLength_change_calls.
  reflexivity.
Qed.

Lemma GetLength_after_VerifyLength g s :
  operation_stack_ s = 0 ->
  (GetLength (state_after (VerifyLength g s)) == LengthResolver.resolved_length g)%Q.
Proof.
  intros H. rewrite (VerifyLength_run g s H). unfold state_after, GetLength; cbn [fst snd].
  destruct (rational.neq (LengthResolver.resolved_length g) (last_length_ s)) eqn:E.
  - cbn. reflexivity.
  - apply rational_neq_false in E. now symmetry.
Qed.

(** C3.  With the operation stack at zero, [VerifyLength] leaves as the
    node's length the maximum of the video, audio and subtitle candidates
    (it bounds all three and is one of them); a candidate whose custom
    length is null and whose input is connected is the "length" rational
    read from the table the traverser generates for the connected output at
    the range [0, 0), and that traversal is made; the video and the audio
    cache read exactly one [SetLength] each, with their own candidate. *)
Theorem VerifyLength_resolves_maximum g s :
  operation_stack_ s = 0 ->
  let r := VerifyLength g s in
  let v := LengthResolver.video_length g in
  let a := LengthResolver.audio_length g in
  let t := LengthResolver.subtitle_length g in
  (GetLength (state_after r) == qMax t (qMax v a))%Q
  /\ ((v <= qMax t (qMax v a))%Q /\ (a <= qMax t (qMax v a))%Q /\ (t <= qMax t (qMax v a))%Q)
  /\ (qMax t (qMax v a) = v \/ qMax t (qMax v a) = a \/ qMax t (qMax v a) = t)
  /\ (rational.isNull (GetCustomLength g Track.kVideo) = true ->
      IsInputConnected g kTextureInput = true ->
      v = value_rational
            (NodeValueTable.Get
               (GenerateTable g (GetConnectedOutput g kTextureInput) (mkTimeRange 0 0))
               NodeValue.kRational "length")
      /\ In (Traverser_GenerateTable (GetConnectedOutput g kTextureInput) (mkTimeRange 0 0))
            (calls r))
  /\ (rational.isNull (GetCustomLength g Track.kAudio) = true ->
      IsInputConnected g kSamplesInput = true ->
      a = value_rational
            (NodeValueTable.Get
               (GenerateTable g (GetConnectedOutput g kSamplesInput) (mkTimeRange 0 0))
               NodeValue.kRational "length")
      /\ In (Traverser_GenerateTable (GetConnectedOutput g kSamplesInput) (mkTimeRange 0 0))
            (calls r))
  /\ List.filter is_SetLength (calls r) =
       [Cache_SetLength video_frame_cache_ v; Cache_SetLength audio_playback_cache_ a].
Proof.
  intros H. cbn zeta.
  pose proof (resolved_length_is_max g) as [Hbound Hone]. cbn zeta in Hbound, Hone.
  split; [| split; [| split; [| split; [| split]]]].
  - exact (GetLength_after_VerifyLength g s H).
  - exact Hbound.
  - exact Hone.
  - intros Hnull Hconn. rewrite (VerifyLength_run g s H). unfold calls; cbn [snd].
    unfold LengthResolver.video_length, LengthResolver.candidate_length,
      LengthResolver.probe_calls, LengthResolver.probes, LengthResolver.probe_length.
    rewrite Hnull, Hconn. cbn [andb]. split; [reflexivity |].
    cbn iota. apply in_or_app. left. now left.
  - intros Hnull Hconn. rewrite (VerifyLength_run g s H). unfold calls; cbn [snd].
    unfold LengthResolver.audio_length, LengthResolver.candidate_length.
    unfold LengthResolver.probe_calls at 2.
    unfold LengthResolver.probes, LengthResolver.probe_length.
    rewrite Hnull, Hconn. cbn [andb]. split; [reflexivity |].
    cbn iota. apply in_or_app. right. cbn [app In]. right. now left.
  - exact (filter_SetLength_VerifyLength g s H).
Qed.

Lemma VerifyLength_resolves_maximum_witness :
  operation_stack_ Scenario.fresh = 0
  /\ (GetLength (state_after (VerifyLength Scenario.graph Scenario.fresh)) == 25 # 2)%Q.
Proof.
  split; [reflexivity |].
  exact (proj1 (VerifyLength_resolves_maximum Scenario.graph Scenario.fresh eq_refl)).
Defined.

(** ** InvalidateCache, step by step *)

Lemma InvalidateCache_suppressed g s range from element job_time :
  operation_stack_ s <> 0 ->
  InvalidateCache g range from element job_time s =
    (tt, s, [super_InvalidateCache range from element job_time]).
Proof.
  intros H. unfold InvalidateCache, mbind, M_bind, bind, read, call, ret; cbn.
  apply Z.eqb_neq in H. now rewrite H.
Qed.

Lemma InvalidateCache_run g s range from element job_time :
  operation_stack_ s = 0 ->
  InvalidateCache g range from element job_time s =
    (tt, state_after (VerifyLength g s),
     invalidate_calls s range from job_time
       ++ calls (VerifyLength g s)
       ++ [super_InvalidateCache range from element job_time]).
Proof.
  intros H.
  unfold InvalidateCache, invalidate_calls, is_tracked, is_video_socket, clamped_range.
  unfold mbind, M_bind, bind, read, call, ret; cbn [fst snd].
  rewrite H. cbn [Z.eqb].
  generalize (VerifyLength g). intros V.
  unfold state_after, calls.
  destruct (String.eqb from kTextureInput || String.eqb from kSamplesInput
            || String.eqb from kVideoParamsInput || String.eqb from kAudioParamsInput).
  - cbn [range_in range_out].
    destruct (rational.neq (qMax 0 (range_in range)) (qMin (GetLength s) (range_out range))).
    + destruct (String.eqb from kTextureInput || String.eqb from kVideoParamsInput);
        destruct (V s) as [[[] s'] ev]; reflexivity.
    + destruct (V s) as [[[] s'] ev]; reflexivity.
  - destruct (V s) as [[[] s'] ev]; reflexivity.
Qed.

Lemma video_socket_tracked from : is_video_socket from = true -> is_tracked from = true.
Proof.
  unfold is_video_socket, is_tracked.
  destruct (String.eqb from kTextureInput), (String.eqb from kVideoParamsInput);
    cbn; intros; try discriminate; rewrite ?orb_true_r; reflexivity.
Qed.

Lemma audio_socket_tracked from :
  is_audio_socket from = true -> is_tracked from = true /\ is_video_socket from = false.
Proof.
  unfold is_audio_socket, is_tracked, is_video_socket. intros H.
  apply orb_true_iff in H as [H | H]; apply String.eqb_eq in H; subst; now cbn.
Qed.

Lemma filter_Invalidate_VerifyLength g s :
  List.filter is_Invalidate (calls (VerifyLength g s)) = [].
Proof.
  destruct (Z.eq_dec (operation_stack_ s) 0) as [H | H].
  - rewrite (VerifyLength_run g s H). unfold calls; cbn [snd].
    unfold LengthResolver.probe_calls, LengthResolver.change_calls.
    destruct (LengthResolver.probes g Track.kVideo kTextureInput),
      (LengthResolver.probes g Track.kAudio kSamplesInput),
      (rational.neq (LengthResolver.resolved_length g) (last_length_ s)); reflexivity.
  - now rewrite (VerifyLength_suppressed g s H).
Qed.

Lemma filter_Invalidate_InvalidateCache g s range from element job_time :
  operation_stack_ s = 0 ->
  List.filter is_Invalidate (calls (InvalidateCache g range from element job_time s)) =
    invalidate_calls s range from job_time.
Proof.
  intros H. rewrite (InvalidateCache_run g s range from element job_time H).
  unfold calls at 1; cbn [snd].
  rewrite !List.filter_app, filter_Invalidate_VerifyLength. cbn [List.filter is_Invalidate app].
  rewrite app_nil_r. unfold invalidate_calls.
  destruct (is_tracked from); [| reflexivity].
  cbn zeta.
  now destruct (rational.neq (range_in (clamped_range (GetLength s) range))
                             (range_out (clamped_range (GetLength s) range))).
Qed.

Lemma qMax_is_Qmax a b : qMax a b = Qmax a b.
Proof.
  unfold qMax, rational.lt, Qmax, GenericMinMax.gmax. now destruct (a ?= b)%Q.
Qed.

Lemma qMin_is_Qmin a b : (qMin a b == Qmin a b)%Q.
Proof.
  unfold qMin, rational.lt, Qmin, GenericMinMax.gmin.
  destruct (a ?= b)%Q eqn:E; try reflexivity.
  apply Qeq_alt in E. now symmetry.
Qed.

Example InvalidateCache_scenario :
  InvalidateCache Scenario.graph (mkTimeRange (-3) 4) kTextureInput 0 7
                  (set_last_length 10 Scenario.fresh) =
    (tt, set_last_length (25 # 2) Scenario.fresh,
     [Cache_Invalidate video_frame_cache_ (mkTimeRange 0 4) 7;
      Traverser_GenerateTable Scenario.producer_video (mkTimeRange 0 0);
      Cache_SetLength video_frame_cache_ 10;
      Traverser_GenerateTable Scenario.producer_audio (mkTimeRange 0 0);
      Cache_SetLength audio_playback_cache_ (25 # 2);
      emit_LengthChanged (25 # 2);
      super_InvalidateCache (mkTimeRange (-3) 4) kTextureInput 0 7]).
Proof. reflexivity. Qed.

(** C1.  With the operation stack at zero, [InvalidateCache(range, from,
    element, job_time)] works on the range [max(0, range.in),
    min(GetLength(), range.out)).  If that range is not degenerate, a call
    from the texture or the video-params socket invalidates the video cache
    on it with [job_time], and nothing else; a call from the samples or the
    audio-params socket invalidates the audio cache on it with [job_time],
    and nothing else.  If the range is degenerate, or the socket is none of
    the four, no cache is invalidated. *)
Theorem InvalidateCache_clamps_and_dispatches g s range from element job_time :
  operation_stack_ s = 0 ->
  let r := clamped_range (GetLength s) range in
  let invalidated :=
    List.filter is_Invalidate (calls (InvalidateCache g range from element job_time s)) in
  ((range_in r == Qmax 0 (range_in range))%Q
   /\ (range_out r == Qmin (GetLength s) (range_out range))%Q)
  /\ (~ degenerate r -> is_video_socket from = true ->
      invalidated = [Cache_Invalidate video_frame_cache_ r job_time])
  /\ (~ degenerate r -> is_audio_socket from = true ->
      invalidated = [Cache_Invalidate audio_playback_cache_ r job_time])
  /\ (degenerate r \/ is_tracked from = false -> invalidated = []).
Proof.
  intros H. cbn zeta.
  rewrite (filter_Invalidate_InvalidateCache g s range from element job_time H).
  unfold invalidate_calls, degenerate. cbn zeta.
  set (r := clamped_range (GetLength s) range).
  split; [| split; [| split]].
  - unfold r, clamped_range; cbn [range_in range_out]. split.
    + now rewrite qMax_is_Qmax.
    + apply qMin_is_Qmin.
  - intros Hnd Hv. rewrite (video_socket_tracked from Hv), Hv.
    apply rational_neq_true in Hnd. now rewrite Hnd.
  - intros Hnd Ha. destruct (audio_socket_tracked from Ha) as [-> ->].
    apply rational_neq_true in Hnd. now rewrite Hnd.
  - intros [Hd | Hn].
    + apply rational_neq_false in Hd. rewrite Hd. now destruct (is_tracked from).
    + now rewrite Hn.
Qed.

Lemma InvalidateCache_clamps_and_dispatches_witness :
  operation_stack_ (set_last_length 10 Scenario.fresh) = 0
  /\ List.filter is_Invalidate
       (calls (InvalidateCache Scenario.graph (mkTimeRange (-3) 4) kSamplesInput 0 7
                               (set_last_length 10 Scenario.fresh)))
     = [Cache_Invalidate audio_playback_cache_ (mkTimeRange 0 4) 7].
Proof.
  split; [reflexivity |].
  refine (proj1 (proj2 (proj2
    (InvalidateCache_clamps_and_dispatches Scenario.graph (set_last_length 10 Scenario.fresh)
       (mkTimeRange (-3) 4) kSamplesInput 0 7 eq_refl))) _ eq_refl).
  unfold degenerate; cbn. intros E. discriminate E.
Defined.

(** C2.  [InvalidateCache] with a nonzero operation stack leaves the node
    as it is and makes one call only, the base class's [InvalidateCache]
    with the same four arguments: no cache is touched and no length is
    recomputed.  With the stack at zero the calls are, in this order, the
    cache invalidation (if any), a full run of [VerifyLength] (which sets
    both caches' lengths, whether or not a cache was invalidated) and then
    the base class's [InvalidateCache] with the same four arguments. *)
Theorem InvalidateCache_gate g s range from element job_time :
  let r := InvalidateCache g range from element job_time s in
  (operation_stack_ s <> 0 ->
     state_after r = s
     /\ calls r = [super_InvalidateCache range from element job_time]
     /\ List.filter is_cache_mutation (calls r) = []
     /\ List.filter is_length_recompute (calls r) = [])
  /\ (operation_stack_ s = 0 ->
     exists invalidated,
       calls r = invalidated ++ calls (VerifyLength g s)
                   ++ [super_InvalidateCache range from element job_time]
       /\ Forall (fun e => is_Invalidate e = true) invalidated
       /\ state_after r = state_after (VerifyLength g s)
       /\ List.filter is_SetLength (calls (VerifyLength g s)) =
            [Cache_SetLength video_frame_cache_ (LengthResolver.video_length g);
             Cache_SetLength audio_playback_cache_ (LengthResolver.audio_length g)]
       /\ (GetLength (state_after r) == LengthResolver.resolved_length g)%Q).
Proof.
  cbn zeta. split; intros H.
  - rewrite (InvalidateCache_suppressed g s range from element job_time H).
    repeat split.
  - exists (invalidate_calls s range from job_time).
    rewrite (InvalidateCache_run g s range from element job_time H).
    unfold state_after at 1 3, calls at 1; cbn [fst snd].
    split; [reflexivity |]. split; [| split; [reflexivity | split]].
    + unfold invalidate_calls. destruct (is_tracked from); [| constructor].
      cbn zeta.
      destruct (rational.neq _ _); repeat constructor.
    + exact (filter_SetLength_VerifyLength g s H).
    + exact (GetLength_after_VerifyLength g s H).
Qed.

Lemma InvalidateCache_gate_witness :
  (operation_stack_ Scenario.batching <> 0
   /\ calls (InvalidateCache Scenario.graph (mkTimeRange 0 4) kTextureInput 0 7
                             Scenario.batching)
      = [super_InvalidateCache (mkTimeRange 0 4) kTextureInput 0 7])
  /\ (operation_stack_ Scenario.fresh = 0
      /\ (GetLength (state_after
            (InvalidateCache Scenario.graph (mkTimeRange 0 4) "other" 0 7 Scenario.fresh))
          == 25 # 2)%Q).
Proof.
  assert (Hb : operation_stack_ Scenario.batching <> 0) by (vm_compute; lia).
  split; (split; [assumption || reflexivity |]).
  - exact (proj1 (proj2 (proj1
      (InvalidateCache_gate Scenario.graph Scenario.batching (mkTimeRange 0 4)
         kTextureInput 0 7) Hb))).
  - destruct (proj2 (InvalidateCache_gate Scenario.graph Scenario.fresh (mkTimeRange 0 4)
                       "other" 0 7) eq_refl) as (inv & _ & _ & _ & _ & Hlen).
    exact Hlen.
Defined.

(** C9.  [InvalidateCache] does not look at the element index: called
    with two element indices on the same node with the same range, socket
    and job time, it leaves the same node state (memoized length included)
    and makes the same calls to the caches, the traverser and the
    length-changed signal; only the forwarded base-class call carries the
    index. *)
Theorem InvalidateCache_element_insensitive g s range from job_time e1 e2 :
  let r1 := InvalidateCache g range from e1 job_time s in
  let r2 := InvalidateCache g range from e2 job_time s in
  state_after r1 = state_after r2
  /\ List.filter (fun e => negb (is_super e)) (calls r1)
     = List.filter (fun e => negb (is_super e)) (calls r2)
  /\ exists body,
       calls r1 = body ++ [super_InvalidateCache range from e1 job_time]
       /\ calls r2 = body ++ [super_InvalidateCache range from e2 job_time].
Proof.
  cbn zeta. destruct (Z.eq_dec (operation_stack_ s) 0) as [H | H].
  - rewrite !(InvalidateCache_run g s range from _ job_time H).
    unfold state_after at 1 3, calls at 1 3 5 7; cbn [fst snd].
    split; [reflexivity |]. split.
    + rewrite !app_assoc, !List.filter_app. reflexivity.
    + exists (invalidate_calls s range from job_time ++ calls (VerifyLength g s)).
      now rewrite <- !app_assoc.
  - rewrite !(InvalidateCache_suppressed g s range from _ job_time H).
    unfold state_after, calls; cbn. split; [reflexivity |]. split; [reflexivity |].
    now exists [].
Qed.

(** ** The memoized length *)

Lemma count_LengthChanged_VerifyLength g s :
  operation_stack_ s = 0 ->
  count is_LengthChanged (calls (VerifyLength g s)) =
    (if rational.neq (LengthResolver.resolved_length g) (last_length_ s) then 1 else 0)%nat.
Proof.
  intros H. rewrite (VerifyLength_run g s H). unfold calls, count; cbn [snd].
  unfold LengthResolver.probe_calls, LengthResolver.change_calls.
  destruct (LengthResolver.probes g Track.kVideo kTextureInput),
    (LengthResolver.probes g Track.kAudio kSamplesInput),
    (rational.neq (LengthResolver.resolved_length g) (last_length_ s)); reflexivity.
Qed.

(** C4.  [GetLength] returns the memoized [last_length_].  A
    [VerifyLength] made with the operation stack at zero emits
    [LengthChanged] exactly once, with the new length, and memoizes that
    length when the newly computed length differs from the memoized one; it
    emits none and keeps the memoized value when they are equal.  With a
    nonzero operation stack [VerifyLength] does nothing at all. *)
Theorem length_is_memoized g s :
  let r := VerifyLength g s in
  let new := LengthResolver.resolved_length g in
  GetLength s = last_length_ s
  /\ (operation_stack_ s = 0 -> ~ (new == GetLength s)%Q ->
      count is_LengthChanged (calls r) = 1%nat
      /\ List.filter is_LengthChanged (calls r) = [emit_LengthChanged new]
      /\ GetLength (state_after r) = new)
  /\ (operation_stack_ s = 0 -> (new == GetLength s)%Q ->
      count is_LengthChanged (calls r) = 0%nat
      /\ GetLength (state_after r) = GetLength s)
  /\ (operation_stack_ s <> 0 -> r = (tt, s, [])).
Proof.
  cbn zeta. split; [reflexivity |]. split; [| split].
  - intros H Hne. apply rational_neq_true in Hne. unfold GetLength in Hne.
    rewrite (count_LengthChanged_VerifyLength g s H), (VerifyLength_run g s H), Hne.
    unfold calls, state_after, GetLength; cbn [fst snd].
    split; [reflexivity |]. split; [| reflexivity].
    unfold LengthResolver.probe_calls, LengthResolver.change_calls. rewrite Hne.
    now destruct (LengthResolver.probes g Track.kVideo kTextureInput),
      (LengthResolver.probes g Track.kAudio kSamplesInput).
  - intros H He. apply rational_neq_false in He. unfold GetLength in He.
    rewrite (count_LengthChanged_VerifyLength g s H), (VerifyLength_run g s H), He.
    split; reflexivity.
  - apply VerifyLength_suppressed.
Qed.

Lemma length_is_memoized_witness :
  (operation_stack_ Scenario.fresh = 0
   /\ ~ (LengthResolver.resolved_length Scenario.graph == GetLength Scenario.fresh)%Q
   /\ count is_LengthChanged (calls (VerifyLength Scenario.graph Scenario.fresh)) = 1%nat)
  /\ (operation_stack_ Scenario.fresh = 0
      /\ (LengthResolver.resolved_length Scenario.unconnected == GetLength Scenario.fresh)%Q
      /\ count is_LengthChanged (calls (VerifyLength Scenario.unconnected Scenario.fresh))
         = 0%nat)
  /\ (operation_stack_ Scenario.batching <> 0
      /\ VerifyLength Scenario.graph Scenario.batching = (tt, Scenario.batching, [])).
Proof.
  assert (Hne : ~ (LengthResolver.resolved_length Scenario.graph
                   == GetLength Scenario.fresh)%Q)
    by (cbn; intros E; discriminate E).
  assert (Heq : (LengthResolver.resolved_length Scenario.unconnected
                 == GetLength Scenario.fresh)%Q) by reflexivity.
  assert (Hb : operation_stack_ Scenario.batching <> 0) by (vm_compute; lia).
  split; [| split].
  - split; [reflexivity | split; [exact Hne |]].
    exact (proj1 (proj1 (proj2 (length_is_memoized Scenario.graph Scenario.fresh))
                    eq_refl Hne)).
  - split; [reflexivity | split; [exact Heq |]].
    exact (proj1 (proj1 (proj2 (proj2 (length_is_memoized Scenario.unconnected
                                         Scenario.fresh))) eq_refl Heq)).
  - split; [exact Hb |].
    exact (proj2 (proj2 (proj2 (length_is_memoized Scenario.graph Scenario.batching))) Hb).
Defined.

(** ** Batches *)

Lemma BeginOperation_run s :
  BeginOperation s = (tt, set_operation_stack (operation_stack_ s + 1) s, [super_BeginOperation]).
Proof. reflexivity. Qed.

Lemma EndOperation_run s :
  EndOperation s = (tt, set_operation_stack (operation_stack_ s - 1) s, [super_EndOperation]).
Proof. reflexivity. Qed.

Lemma deliver_suppressed l s :
  operation_stack_ s <> 0 -> deliver l s = (tt, s, List.map forwarded l).
Proof.
  intros H. induction l as [| i rest IH]; [reflexivity |].
  cbn [deliver List.map]. unfold mbind, M_bind, bind.
  rewrite (InvalidateCache_suppressed _ s _ _ _ _ H), IH. reflexivity.
Qed.

Lemma batch_run l s :
  operation_stack_ s = 0 ->
  batch l s = (tt, s, [super_BeginOperation] ++ List.map forwarded l ++ [super_EndOperation]).
Proof.
  intros H. unfold batch, mbind, M_bind, bind.
  rewrite BeginOperation_run.
  rewrite deliver_suppressed by (cbn; lia).
  rewrite EndOperation_run. cbn [operation_stack_ set_operation_stack].
  destruct s as [st len va aa outs]; cbn in *. subst st.
  reflexivity.
Qed.

Lemma count_LengthChanged_forwarded l :
  List.filter is_LengthChanged (List.map forwarded l) = [].
Proof. induction l as [| i rest IH]; [reflexivity | exact IH]. Qed.

Lemma filter_recompute_forwarded l :
  List.filter is_length_recompute (List.map forwarded l) = [].
Proof. induction l as [| i rest IH]; [reflexivity | exact IH]. Qed.

Example batch_scenario :
  batch BatchScenario.changes Scenario.fresh =
    (tt, Scenario.fresh,
     [super_BeginOperation;
      super_InvalidateCache (mkTimeRange 0 10) kTextureInput 0 1;
      super_InvalidateCache (mkTimeRange 0 (25 # 2)) kSamplesInput 0 2;
      super_EndOperation]).
Proof. reflexivity. Qed.

(** C5, as the code has it.  [EndOperation] decrements the operation stack
    and calls the base class, nothing more: it does not re-verify the length.
    A batch entered with the stack at zero therefore emits no
    [LengthChanged] at all, neither while the stack is nonzero nor on the
    way back to zero, recomputes nothing and leaves the node, its memoized
    length included, as it was.  The stale length is resolved by the next
    [VerifyLength] made with the stack at zero, which emits [LengthChanged]
    once if the resolved length differs from the memoized one and not at all
    otherwise. *)
Theorem batch_defers_verification g l s :
  operation_stack_ s = 0 ->
  let r := batch l s in
  EndOperation s = (tt, set_operation_stack (operation_stack_ s - 1) s, [super_EndOperation])
  /\ state_after r = s
  /\ count is_LengthChanged (calls r) = 0%nat
  /\ List.filter is_length_recompute (calls r) = []
  /\ count is_LengthChanged (calls (VerifyLength g (state_after r))) =
       (if rational.neq (LengthResolver.resolved_length g) (GetLength s) then 1 else 0)%nat
  /\ (GetLength (state_after (VerifyLength g (state_after r)))
      == LengthResolver.resolved_length g)%Q.
Proof.
  intros H. cbn zeta. rewrite (batch_run l s H).
  unfold state_after at 1 2 4, calls at 1 2; cbn [fst snd].
  split; [reflexivity |]. split; [reflexivity |]. split; [| split; [| split]].
  - unfold count. rewrite !List.filter_app, count_LengthChanged_forwarded. reflexivity.
  - rewrite !List.filter_app, filter_recompute_forwarded. reflexivity.
  - exact (count_LengthChanged_VerifyLength g s H).
  - exact (GetLength_after_VerifyLength g s H).
Qed.

Lemma batch_defers_verification_witness :
  operation_stack_ Scenario.fresh = 0
  /\ count is_LengthChanged (calls (batch BatchScenario.changes Scenario.fresh)) = 0%nat.
Proof.
  split; [reflexivity |].
  exact (proj1 (proj2 (proj2
    (batch_defers_verification Scenario.graph BatchScenario.changes Scenario.fresh eq_refl)))).
Defined.

(** C5 as it is written fails: after a batch that connected a ten second
    video and a twelve and a half second audio producer, the node still
    reports length zero and has notified nobody. *)
Lemma batch_reverifies_counterexample :
  ~ batch_reverifies Scenario.graph BatchScenario.changes Scenario.fresh.
Proof.
  unfold batch_reverifies. cbn zeta. intros [Hlen _].
  cbn in Hlen. discriminate Hlen.
Qed.

(** ** Stream registry *)

Lemma socket_name_inj t1 i1 t2 i2 :
  socket_name t1 i1 = socket_name t2 i2 -> t1 = t2 /\ i1 = i2.
Proof.
  unfold socket_name, Track.Reference.ToString;
    cbn [Track.Reference.type Track.Reference.index].
  destruct t1, t2; cbn; intros E; try discriminate E;
    unfold String.append in E; injection E as E; apply (inj pretty) in E; auto.
Qed.

Lemma elem_of_stream_sockets type lo hi name :
  name ∈ stream_sockets type lo hi <-> exists i, lo <= i < hi /\ name = socket_name type i.
Proof.
  unfold stream_sockets. rewrite elem_of_list_to_set, list_elem_of_fmap.
  setoid_rewrite elem_of_seqZ. split; intros (i & H1 & H2).
  - exists i. split; [lia | assumption].
  - exists i. split; [assumption | lia].
Qed.

Lemma set_outputs_id s : set_outputs (outputs s) s = s.
Proof. now destruct s. Qed.

Lemma for_each_AddOutput type l s :
  for_each l (fun i => AddOutput (socket_name type i)) s =
    (tt, set_outputs (outputs s ∪ list_to_set (socket_name type <$> l)) s, []).
Proof.
  revert s. induction l as [| i rest IH]; intros s.
  - cbn. rewrite (right_id_L ∅ (∪)), set_outputs_id. reflexivity.
  - cbn [for_each]. unfold mbind, M_bind, bind. unfold AddOutput at 1, modify.
    rewrite IH. cbn [fmap list_fmap list_to_set outputs set_outputs app
                     operation_stack_ last_length_ video_params_array audio_params_array].
    rewrite (assoc_L (∪)). reflexivity.
Qed.

Lemma for_each_RemoveOutput type l s :
  for_each l (fun i => RemoveOutput (socket_name type i)) s =
    (tt, set_outputs (outputs s ∖ list_to_set (socket_name type <$> l)) s, []).
Proof.
  revert s. induction l as [| i rest IH]; intros s.
  - cbn. rewrite difference_empty_L, set_outputs_id. reflexivity.
  - cbn [for_each]. unfold mbind, M_bind, bind. unfold RemoveOutput at 1, modify.
    rewrite IH. cbn [fmap list_fmap list_to_set outputs set_outputs app
                     operation_stack_ last_length_ video_params_array audio_params_array].
    now rewrite difference_difference_l_L.
Qed.

Lemma InputResized_run type id old new s :
  params_input type = Some id ->
  InputResized id old new s =
    (tt,
     set_outputs (if old <? new then outputs s ∪ stream_sockets type old new
                  else if new <? old then outputs s ∖ stream_sockets type new old
                  else outputs s) s,
     []).
Proof.
  intros Hid. unfold InputResized, for_range, stream_sockets.
  destruct type; cbn in Hid; inversion Hid; subst id; cbn [String.eqb orb];
    change (String.eqb kVideoParamsInput kVideoParamsInput) with true;
    change (String.eqb kAudioParamsInput kVideoParamsInput) with false;
    change (String.eqb kAudioParamsInput kAudioParamsInput) with true;
    cbn [orb];
    (destruct (old <? new);
     [apply for_each_AddOutput
     | destruct (new <? old);
       [apply for_each_RemoveOutput | now rewrite set_outputs_id]]).
Qed.

Lemma resize_array_grow_one a :
  resize_array a (Z.to_nat (Z.of_nat (length a) + 1)) = a ++ [QVariant_null].
Proof.
  unfold resize_array.
  replace (Z.to_nat (Z.of_nat (length a) + 1)) with (S (length a)) by lia.
  rewrite take_ge by lia. replace (S (length a) - length a)%nat with 1%nat by lia.
  reflexivity.
Qed.

Lemma insert_last (a : list QVariant) v :
  <[Z.to_nat (Z.of_nat (length a)) := v]> (a ++ [QVariant_null]) = a ++ [v].
Proof.
  rewrite Nat2Z.id. rewrite insert_app_r_alt by lia.
  now rewrite Nat.sub_diag.
Qed.

Lemma seqZ_one n : seqZ n (n + 1 - n) = [n].
Proof. replace (n + 1 - n) with 1 by lia. reflexivity. Qed.

Lemma AddStream_video v s :
  AddStream Track.kVideo v s =
    (stream_count s Track.kVideo,
     mkViewerOutput (operation_stack_ s) (last_length_ s)
       (video_params_array s ++ [v]) (audio_params_array s)
       (outputs s ∪ {[socket_name Track.kVideo (stream_count s Track.kVideo)]}),
     []).
Proof.
  unfold AddStream, InputArrayAppend, InputArrayResize, InputArraySize, SetStandardValue.
  unfold mbind, M_bind, bind, read, modify, ret.
  change (array_of kVideoParamsInput) with video_params_array.
  replace (Z.of_nat (length (video_params_array s))
           =? Z.of_nat (length (video_params_array s)) + 1) with false
    by (symmetry; apply Z.eqb_neq; lia).
  rewrite (InputResized_run Track.kVideo kVideoParamsInput _ _ _ eq_refl).
  replace (Z.of_nat (length (video_params_array s))
           <? Z.of_nat (length (video_params_array s)) + 1) with true
    by (symmetry; apply Z.ltb_lt; lia).
  change (set_array kVideoParamsInput) with
    (fun a s0 => mkViewerOutput (operation_stack_ s0) (last_length_ s0) a
                   (audio_params_array s0) (outputs s0)).
  cbn beta.
  cbn [set_outputs operation_stack_ last_length_ video_params_array
       audio_params_array outputs app stream_count].
  rewrite resize_array_grow_one, insert_last.
  unfold stream_sockets. rewrite seqZ_one. cbn [fmap list_fmap list_to_set].
  rewrite (right_id_L ∅ (∪)). reflexivity.
Qed.

Lemma AddStream_audio v s :
  AddStream Track.kAudio v s =
    (stream_count s Track.kAudio,
     mkViewerOutput (operation_stack_ s) (last_length_ s)
       (video_params_array s) (audio_params_array s ++ [v])
       (outputs s ∪ {[socket_name Track.kAudio (stream_count s Track.kAudio)]}),
     []).
Proof.
  unfold AddStream, InputArrayAppend, InputArrayResize, InputArraySize, SetStandardValue.
  unfold mbind, M_bind, bind, read, modify, ret.
  change (array_of kAudioParamsInput) with audio_params_array.
  replace (Z.of_nat (length (audio_params_array s))
           =? Z.of_nat (length (audio_params_array s)) + 1) with false
    by (symmetry; apply Z.eqb_neq; lia).
  rewrite (InputResized_run Track.kAudio kAudioParamsInput _ _ _ eq_refl).
  replace (Z.of_nat (length (audio_params_array s))
           <? Z.of_nat (length (audio_params_array s)) + 1) with true
    by (symmetry; apply Z.ltb_lt; lia).
  change (set_array kAudioParamsInput) with
    (fun a s0 => mkViewerOutput (operation_stack_ s0) (last_length_ s0)
                   (video_params_array s0) a (outputs s0)).
  cbn beta.
  cbn [set_outputs operation_stack_ last_length_ video_params_array
       audio_params_array outputs app stream_count].
  rewrite resize_array_grow_one, insert_last.
  unfold stream_sockets. rewrite seqZ_one. cbn [fmap list_fmap list_to_set].
  rewrite (right_id_L ∅ (∪)). reflexivity.
Qed.

Lemma AddStream_subtitle v s : AddStream Track.kSubtitle v s = (-1, s, []).
Proof. reflexivity. Qed.

Lemma resize_array_length a n : length (resize_array a n) = n.
Proof.
  unfold resize_array. rewrite length_app, length_take, length_replicate. lia.
Qed.

Lemma resize_array_same a : resize_array a (length a) = a.
Proof.
  unfold resize_array. rewrite firstn_all, Nat.sub_diag. cbn. apply app_nil_r.
Qed.

Lemma stream_sockets_empty type lo hi : hi <= lo -> stream_sockets type lo hi = ∅.
Proof. intros H. unfold stream_sockets. rewrite seqZ_nil by lia. reflexivity. Qed.

Lemma InputArrayResize_video size s :
  let n := stream_count s Track.kVideo in
  InputArrayResize kVideoParamsInput size s =
    (tt,
     mkViewerOutput (operation_stack_ s) (last_length_ s)
       (resize_array (video_params_array s) (Z.to_nat size)) (audio_params_array s)
       (if n <? size then outputs s ∪ stream_sockets Track.kVideo n size
        else outputs s ∖ stream_sockets Track.kVideo size n),
     []).
Proof.
  cbn zeta. unfold InputArrayResize, InputArraySize, stream_count.
  unfold mbind, M_bind, bind, read, modify, ret.
  change (array_of kVideoParamsInput) with video_params_array.
  destruct (Z.eqb_spec (Z.of_nat (length (video_params_array s))) size) as [E | E].
  - subst size. rewrite Z.ltb_irrefl, Nat2Z.id, resize_array_same.
    rewrite stream_sockets_empty by lia. rewrite difference_empty_L.
    now destruct s.
  - rewrite (InputResized_run Track.kVideo kVideoParamsInput _ _ _ eq_refl).
    change (set_array kVideoParamsInput) with
      (fun a s0 => mkViewerOutput (operation_stack_ s0) (last_length_ s0) a
                     (audio_params_array s0) (outputs s0)).
    cbn beta.
    cbn [set_outputs operation_stack_ last_length_ video_params_array
         audio_params_array outputs app].
    destruct (Z.ltb_spec (Z.of_nat (length (video_params_array s))) size) as [L | L];
      [reflexivity |].
    replace (size <? Z.of_nat (length (video_params_array s))) with true
      by (symmetry; apply Z.ltb_lt; lia).
    reflexivity.
Qed.

Lemma InputArrayResize_audio size s :
  let n := stream_count s Track.kAudio in
  InputArrayResize kAudioParamsInput size s =
    (tt,
     mkViewerOutput (operation_stack_ s) (last_length_ s)
       (video_params_array s) (resize_array (audio_params_array s) (Z.to_nat size))
       (if n <? size then outputs s ∪ stream_sockets Track.kAudio n size
        else outputs s ∖ stream_sockets Track.kAudio size n),
     []).
Proof.
  cbn zeta. unfold InputArrayResize, InputArraySize, stream_count.
  unfold mbind, M_bind, bind, read, modify, ret.
  change (array_of kAudioParamsInput) with audio_params_array.
  destruct (Z.eqb_spec (Z.of_nat (length (audio_params_array s))) size) as [E | E].
  - subst size. rewrite Z.ltb_irrefl, Nat2Z.id, resize_array_same.
    rewrite stream_sockets_empty by lia. rewrite difference_empty_L.
    now destruct s.
  - rewrite (InputResized_run Track.kAudio kAudioParamsInput _ _ _ eq_refl).
    change (set_array kAudioParamsInput) with
      (fun a s0 => mkViewerOutput (operation_stack_ s0) (last_length_ s0)
                     (video_params_array s0) a (outputs s0)).
    cbn beta.
    cbn [set_outputs operation_stack_ last_length_ video_params_array
         audio_params_array outputs app].
    destruct (Z.ltb_spec (Z.of_nat (length (audio_params_array s))) size) as [L | L];
      [reflexivity |].
    replace (size <? Z.of_nat (length (audio_params_array s))) with true
      by (symmetry; apply Z.ltb_lt; lia).
    reflexivity.
Qed.

Lemma stream_sockets_one type n : {[socket_name type n]} = stream_sockets type n (n + 1).
Proof.
  unfold stream_sockets. rewrite seqZ_one. cbn [fmap list_fmap list_to_set].
  now rewrite (right_id_L ∅ (∪)).
Qed.

Lemma size_stream_sockets type lo hi :
  size (stream_sockets type lo hi) = Z.to_nat (hi - lo).
Proof.
  unfold stream_sockets. rewrite size_list_to_set.
  - now rewrite length_fmap, length_seqZ.
  - apply NoDup_fmap_2_strong; [| apply NoDup_seqZ].
    intros i j _ _ E. now apply socket_name_inj in E as [_ E].
Qed.

Lemma stream_count_nonneg s type : 0 <= stream_count s type.
Proof. destruct type; cbn; lia. Qed.

Lemma stream_count_array type id s :
  params_input type = Some id -> Z.of_nat (length (array_of id s)) = stream_count s type.
Proof. intros H. destruct type; cbn in H; inversion H; reflexivity. Qed.

Lemma params_input_not_subtitle type id :
  params_input type = Some id -> type <> Track.kSubtitle.
Proof. intros H ->. discriminate H. Qed.

(** What a resize does to the node, for either medium. *)
Lemma InputArrayResize_run type id size s :
  params_input type = Some id ->
  let n := stream_count s type in
  let r := InputArrayResize id size s in
  calls r = []
  /\ outputs (state_after r) =
       (if n <? size then outputs s ∪ stream_sockets type n size
        else outputs s ∖ stream_sockets type size n)
  /\ stream_count (state_after r) type = Z.of_nat (Z.to_nat size)
  /\ (forall t, t <> type -> stream_count (state_after r) t = stream_count s t)
  /\ operation_stack_ (state_after r) = operation_stack_ s
  /\ last_length_ (state_after r) = last_length_ s.
Proof.
  intros Hid. cbn zeta.
  destruct type; cbn in Hid; inversion Hid; subst id.
  - rewrite InputArrayResize_video. unfold state_after, calls; cbn.
    rewrite resize_array_length. repeat split.
    intros t Ht. now destruct t.
  - rewrite InputArrayResize_audio. unfold state_after, calls; cbn.
    rewrite resize_array_length. repeat split.
    intros t Ht. now destruct t.
Qed.

(** What [AddStream] does to the node, for either medium. *)
Lemma AddStream_run type id v s :
  params_input type = Some id ->
  let n := stream_count s type in
  let r := AddStream type v s in
  result r = n
  /\ calls r = []
  /\ outputs (state_after r) = outputs s ∪ stream_sockets type n (n + 1)
  /\ array_of id (state_after r) = array_of id s ++ [v]
  /\ stream_count (state_after r) type = n + 1
  /\ (forall t, t <> type -> stream_count (state_after r) t = stream_count s t)
  /\ operation_stack_ (state_after r) = operation_stack_ s
  /\ last_length_ (state_after r) = last_length_ s.
Proof.
  intros Hid. cbn zeta.
  destruct type; cbn in Hid; inversion Hid; subst id.
  - rewrite AddStream_video. unfold result, state_after, calls; cbn.
    rewrite length_app, <- stream_sockets_one. cbn. repeat split; [lia |].
    intros t Ht. now destruct t.
  - rewrite AddStream_audio. unfold result, state_after, calls; cbn.
    rewrite length_app, <- stream_sockets_one. cbn. repeat split; [lia |].
    intros t Ht. now destruct t.
Qed.

Lemma Track_Type_eq_dec (a b : Track.Type_) : {a = b} + {a <> b}.
Proof. decide equality. Qed.

(** The invariant carries over to any node whose sockets and stream
    counts changed the way a resize of [type] to [k] changes them. *)
Lemma registry_ok_resized s s' type k :
  type <> Track.kSubtitle -> registry_ok s -> 0 <= k ->
  outputs s' =
    (if stream_count s type <? k then outputs s ∪ stream_sockets type (stream_count s type) k
     else outputs s ∖ stream_sockets type k (stream_count s type)) ->
  stream_count s' type = k ->
  (forall t, t <> type -> stream_count s' t = stream_count s t) ->
  registry_ok s'
  /\ Z.of_nat (size (outputs s')) = Z.of_nat (size (outputs s)) + (k - stream_count s type).
Proof.
  intros Htype Hok Hk Hout Hcnt Hoth.
  set (n := stream_count s type) in *.
  assert (Hn : 0 <= n) by apply stream_count_nonneg.
  split.
  - intros t i Ht. unfold has_output. rewrite Hout.
    pose proof (Hok t i Ht) as Hti. unfold has_output in Hti.
    destruct (Track_Type_eq_dec t type) as [-> | Hne].
    + rewrite Hcnt. fold n in Hti.
      destruct (Z.ltb_spec n k) as [L | L].
      * rewrite elem_of_union, elem_of_stream_sockets, Hti. split.
        -- intros [H | (j & Hj & E)]; [lia |].
           apply socket_name_inj in E as [_ ->]. lia.
        -- intros H. destruct (Z.lt_ge_cases i n); [left; lia |].
           right. exists i. split; [lia | reflexivity].
      * rewrite elem_of_difference, elem_of_stream_sockets, Hti. split.
        -- intros [H Hno]. destruct (Z.lt_ge_cases i k); [lia |].
           exfalso. apply Hno. exists i. split; [lia | reflexivity].
        -- intros H. split; [lia |]. intros (j & Hj & E).
           apply socket_name_inj in E as [_ ->]. lia.
    + rewrite (Hoth t Hne).
      assert (Hno : forall lo hi, socket_name t i ∉ stream_sockets type lo hi).
      { intros lo hi H. apply elem_of_stream_sockets in H as (j & _ & E).
        apply socket_name_inj in E as [E _]. contradiction. }
      destruct (n <? k).
      * rewrite elem_of_union, Hti. split; [intros [H | H]; [exact H | now apply Hno in H] | auto].
      * rewrite elem_of_difference, Hti. split; [tauto | intros H; split; [exact H | apply Hno]].
  - rewrite Hout. destruct (Z.ltb_spec n k) as [L | L].
    + rewrite size_union, size_stream_sockets; [lia |].
      apply elem_of_disjoint. intros name Hin Hnew.
      apply elem_of_stream_sockets in Hnew as (j & Hj & ->).
      apply (Hok type j Htype) in Hin. fold n in Hin. lia.
    + assert (Hsub : stream_sockets type k n ⊆ outputs s).
      { intros name Hname. apply elem_of_stream_sockets in Hname as (j & Hj & ->).
        apply (Hok type j Htype). fold n. lia. }
      rewrite (size_difference _ _ Hsub), size_stream_sockets.
      pose proof (subseteq_size _ _ Hsub) as Hle. rewrite size_stream_sockets in Hle.
      lia.
Qed.

(** Resizing an array keeps the registry's invariant. *)
Lemma InputArrayResize_ok type id k s :
  params_input type = Some id -> registry_ok s -> 0 <= k ->
  let s' := state_after (InputArrayResize id k s) in
  registry_ok s'
  /\ stream_count s' type = k
  /\ (forall t, t <> type -> stream_count s' t = stream_count s t)
  /\ Z.of_nat (size (outputs s')) = Z.of_nat (size (outputs s)) + (k - stream_count s type).
Proof.
  intros Hid Hok Hk. cbn zeta.
  pose proof (InputArrayResize_run type id k s Hid) as (_ & Hout & Hcnt & Hoth & _).
  cbn zeta in Hout, Hcnt, Hoth. rewrite Z2Nat.id in Hcnt by exact Hk.
  pose proof (registry_ok_resized s _ type k (params_input_not_subtitle _ _ Hid)
                Hok Hk Hout Hcnt Hoth) as [Hok' Hsz].
  auto.
Qed.

(** Adding a stream keeps the invariant and returns the previous size. *)
Lemma AddStream_ok type id v s :
  params_input type = Some id -> registry_ok s ->
  let r := AddStream type v s in
  result r = stream_count s type
  /\ registry_ok (state_after r)
  /\ stream_count (state_after r) type = stream_count s type + 1
  /\ (forall t, t <> type -> stream_count (state_after r) t = stream_count s t)
  /\ Z.of_nat (size (outputs (state_after r))) = Z.of_nat (size (outputs s)) + 1.
Proof.
  intros Hid Hok. cbn zeta.
  pose proof (AddStream_run type id v s Hid) as (Hres & _ & Hout & _ & Hcnt & Hoth & _).
  cbn zeta in Hres, Hout, Hcnt, Hoth.
  assert (Hout' : outputs (state_after (AddStream type v s)) =
            (if stream_count s type <? stream_count s type + 1
             then outputs s
                  ∪ stream_sockets type (stream_count s type) (stream_count s type + 1)
             else outputs s
                  ∖ stream_sockets type (stream_count s type + 1) (stream_count s type))).
  { replace (stream_count s type <? stream_count s type + 1) with true
      by (symmetry; apply Z.ltb_lt; lia). exact Hout. }
  pose proof (stream_count_nonneg s type) as Hn.
  assert (Hk : 0 <= stream_count s type + 1) by lia.
  pose proof (registry_ok_resized s _ type _ (params_input_not_subtitle _ _ Hid) Hok
                Hk Hout' Hcnt Hoth) as [Hok' Hsz].
  split; [exact Hres |]. split; [exact Hok' |]. split; [exact Hcnt |].
  split; [exact Hoth |]. rewrite Hsz. lia.
Qed.

Lemma add_streams_ok type id values s :
  params_input type = Some id -> registry_ok s ->
  let r := add_streams type values s in
  result r = seqZ (stream_count s type) (Z.of_nat (length values))
  /\ registry_ok (state_after r)
  /\ stream_count (state_after r) type = stream_count s type + Z.of_nat (length values)
  /\ (forall t, t <> type -> stream_count (state_after r) t = stream_count s t)
  /\ Z.of_nat (size (outputs (state_after r)))
     = Z.of_nat (size (outputs s)) + Z.of_nat (length values).
Proof.
  intros Hid. revert s. induction values as [| v rest IH]; intros s Hok; cbn zeta.
  - cbn. rewrite !Z.add_0_r. split; [reflexivity |]. split; [exact Hok |]. auto.
  - cbn [add_streams]. unfold mbind, M_bind, bind.
    pose proof (AddStream_ok type id v s Hid Hok) as (Hres & Hok1 & Hcnt1 & Hoth1 & Hsz1).
    cbn zeta in Hres, Hok1, Hcnt1, Hoth1, Hsz1.
    destruct (AddStream type v s) as [[i s1] e1].
    unfold result, state_after in Hres, Hok1, Hcnt1, Hoth1, Hsz1; cbn [fst snd] in *.
    specialize (IH s1 Hok1) as (Hres2 & Hok2 & Hcnt2 & Hoth2 & Hsz2). cbn zeta in *.
    destruct (add_streams type rest s1) as [[indices s2] e2].
    unfold result, state_after in *; cbn [fst snd ret] in *.
    split; [| split; [exact Hok2 | split; [| split]]].
    + rewrite (seqZ_cons (stream_count s type)) by (cbn [length]; lia).
      subst i indices. rewrite Hcnt1. f_equal. f_equal; cbn [length]; lia.
    + rewrite Hcnt2, Hcnt1. cbn [length]. lia.
    + intros t Ht. rewrite (Hoth2 t Ht). now apply Hoth1.
    + rewrite Hsz2, Hsz1. cbn [length]. lia.
Qed.

Lemma InputArrayRemoveLast_eq type id s :
  params_input type = Some id ->
  InputArrayRemoveLast id s = InputArrayResize id (stream_count s type - 1) s.
Proof.
  intros Hid. unfold InputArrayRemoveLast, InputArraySize, mbind, M_bind, bind, read.
  rewrite (stream_count_array type id s Hid).
  now destruct (InputArrayResize id (stream_count s type - 1) s) as [[[] s'] e].
Qed.

Lemma remove_last_ok type id m s :
  params_input type = Some id -> registry_ok s ->
  Z.of_nat m <= stream_count s type ->
  let s' := state_after (remove_last id m s) in
  registry_ok s'
  /\ stream_count s' type = stream_count s type - Z.of_nat m
  /\ (forall t, t <> type -> stream_count s' t = stream_count s t)
  /\ Z.of_nat (size (outputs s')) = Z.of_nat (size (outputs s)) - Z.of_nat m.
Proof.
  intros Hid. revert s. induction m as [| m IH]; intros s Hok Hm; cbn zeta.
  - cbn. rewrite !Z.sub_0_r. auto.
  - cbn [remove_last]. unfold mbind, M_bind, bind.
    rewrite (InputArrayRemoveLast_eq type id s Hid).
    assert (Hk : 0 <= stream_count s type - 1) by lia.
    pose proof (InputArrayResize_ok type id _ s Hid Hok Hk) as (Hok1 & Hcnt1 & Hoth1 & Hsz1).
    cbn zeta in Hok1, Hcnt1, Hoth1, Hsz1.
    destruct (InputArrayResize id (stream_count s type - 1) s) as [[[] s1] e1].
    unfold state_after in Hok1, Hcnt1, Hoth1, Hsz1; cbn [fst snd] in *.
    assert (Hm1 : Z.of_nat m <= stream_count s1 type) by lia.
    specialize (IH s1 Hok1 Hm1) as (Hok2 & Hcnt2 & Hoth2 & Hsz2). cbn zeta in *.
    destruct (remove_last id m s1) as [[[] s2] e2].
    unfold state_after in *; cbn [fst snd] in *.
    split; [exact Hok2 | split; [lia | split; [| lia]]].
    intros t Ht. rewrite (Hoth2 t Ht). now apply Hoth1.
Qed.

Lemma InputResized_outputs type id old_size new_size s :
  params_input type = Some id ->
  outputs (state_after (InputResized id old_size new_size s)) =
    if old_size <? new_size then outputs s ∪ stream_sockets type old_size new_size
    else if new_size <? old_size then outputs s ∖ stream_sockets type new_size old_size
    else outputs s.
Proof. intros Hid. now rewrite (InputResized_run type id _ _ _ Hid). Qed.

Lemma registry_ok_init : registry_ok ViewerOutput_init.
Proof.
  intros type i Ht. unfold has_output. cbn [outputs ViewerOutput_init].
  rewrite elem_of_empty. destruct type; cbn; lia.
Qed.

(** A node as constructed, with or without default streams, satisfies the
    registry's invariant. *)
Lemma registry_ok_new create_default_streams :
  registry_ok (state_after (ViewerOutput_new create_default_streams ViewerOutput_init)).
Proof.
  destruct create_default_streams; [| exact registry_ok_init].
  unfold ViewerOutput_new, mbind, M_bind, bind.
  pose proof (AddStream_ok Track.kVideo kVideoParamsInput QVariant_null ViewerOutput_init
                eq_refl registry_ok_init) as (_ & Hok1 & _).
  cbn zeta in Hok1.
  destruct (AddStream Track.kVideo QVariant_null ViewerOutput_init) as [[i1 s1] e1].
  unfold state_after in Hok1; cbn [fst snd] in Hok1.
  pose proof (AddStream_ok Track.kAudio kAudioParamsInput QVariant_null s1
                eq_refl Hok1) as (_ & Hok2 & _).
  cbn zeta in Hok2.
  destruct (AddStream Track.kAudio QVariant_null s1) as [[i2 s2] e2].
  exact Hok2.
Qed.

(** C7.  A resize of the video or audio parameter array from [old_size]
    to [new_size] reaches [InputResized]: when the array grows, the outputs
    afterwards are the previous ones and the sockets of the indices
    [old_size, new_size); when it shrinks, they are the previous ones without
    the sockets of the indices [new_size, old_size); when the size is
    unchanged so are the outputs.  Consequently, on a node whose stream
    sockets are those of its n streams (as they are after construction),
    [AddStream] called for N values returns the successive array sizes
    n, n+1, ..., n+N-1, and after removing the last element M times
    (M <= N) the medium has n+N-M streams, has an output socket for index i
    exactly when 0 <= i < n+N-M, and the node has N-M sockets more than at
    the start: N-M in all when it started with none. *)
Theorem stream_sockets_follow_array_size :
  (forall type id old_size new_size s,
      params_input type = Some id ->
      let s' := state_after (InputResized id old_size new_size s) in
      (old_size < new_size ->
       forall name, name ∈ outputs s' <->
         name ∈ outputs s
         \/ exists i, old_size <= i < new_size /\ name = socket_name type i)
      /\ (new_size < old_size ->
          forall name, name ∈ outputs s' <->
            name ∈ outputs s
            /\ ~ exists i, new_size <= i < old_size /\ name = socket_name type i)
      /\ (new_size = old_size -> outputs s' = outputs s))
  /\ (forall type id values (m : nat) s,
        params_input type = Some id -> registry_ok s ->
        (m <= length values)%nat ->
        let n := stream_count s type in
        let N := Z.of_nat (length values) in
        let M := Z.of_nat m in
        let added := add_streams type values s in
        let s' := state_after (remove_last id m (state_after added)) in
        result added = seqZ n N
        /\ stream_count s' type = n + N - M
        /\ (forall i, has_output s' type i <-> 0 <= i < n + N - M)
        /\ Z.of_nat (size (outputs s')) = Z.of_nat (size (outputs s)) + N - M
        /\ registry_ok s').
Proof.
  split.
  - intros type id old_size new_size s Hid. cbn zeta.
    rewrite (InputResized_outputs type id _ _ _ Hid).
    split; [| split].
    + intros L name. replace (old_size <? new_size) with true by (symmetry; now apply Z.ltb_lt).
      now rewrite elem_of_union, elem_of_stream_sockets.
    + intros L name. replace (old_size <? new_size) with false by (symmetry; apply Z.ltb_ge; lia).
      replace (new_size <? old_size) with true by (symmetry; now apply Z.ltb_lt).
      now rewrite elem_of_difference, elem_of_stream_sockets.
    + intros ->. now rewrite Z.ltb_irrefl.
  - intros type id values m s Hid Hok Hm. cbn zeta.
    pose proof (add_streams_ok type id values s Hid Hok) as (Hres & Hok1 & Hcnt1 & Hoth1 & Hsz1).
    cbn zeta in Hres, Hok1, Hcnt1, Hoth1, Hsz1.
    set (s1 := state_after (add_streams type values s)) in *.
    assert (Hm1 : Z.of_nat m <= stream_count s1 type)
      by (pose proof (stream_count_nonneg s type); lia).
    pose proof (remove_last_ok type id m s1 Hid Hok1 Hm1) as (Hok2 & Hcnt2 & Hoth2 & Hsz2).
    cbn zeta in Hok2, Hcnt2, Hoth2, Hsz2.
    set (s2 := state_after (remove_last id m s1)) in *.
    split; [exact Hres |]. split; [lia |]. split; [| split; [lia | exact Hok2]].
    intros i. rewrite (Hok2 type i (params_input_not_subtitle _ _ Hid)). lia.
Qed.

Example add_three_remove_one :
  let added := add_streams Track.kVideo [QVariant_null; QVariant_null; QVariant_null]
                           Scenario.fresh in
  let s' := state_after (remove_last kVideoParamsInput 1 (state_after added)) in
  result added = [0; 1; 2]
  /\ video_params_array s' = [QVariant_null; QVariant_null]
  /\ elements (outputs s') ≡ₚ ["v:0"; "v:1"]%string.
Proof.
  cbn zeta. split; [reflexivity |]. split; [reflexivity |].
  vm_compute. apply Permutation_refl || apply perm_swap.
Qed.

Lemma stream_sockets_follow_array_size_witness :
  (params_input Track.kVideo = Some kVideoParamsInput
   /\ 0 < 2
   /\ socket_name Track.kVideo 1
        ∈ outputs (state_after (InputResized kVideoParamsInput 0 2 Scenario.fresh)))
  /\ (registry_ok Scenario.fresh
      /\ (1 <= length [QVariant_null; QVariant_null; QVariant_null])%nat
      /\ Z.of_nat (size (outputs (state_after
            (remove_last kVideoParamsInput 1
               (state_after (add_streams Track.kVideo
                               [QVariant_null; QVariant_null; QVariant_null]
                               Scenario.fresh))))))
         = Z.of_nat (size (outputs Scenario.fresh)) + 3 - 1).
Proof.
  assert (H02 : 0 < 2) by lia.
  assert (H13 : (1 <= length [QVariant_null; QVariant_null; QVariant_null])%nat)
    by (cbn; lia).
  split.
  - split; [reflexivity | split; [exact H02 |]].
    apply (proj1 (proj1 stream_sockets_follow_array_size Track.kVideo kVideoParamsInput
                    0 2 Scenario.fresh eq_refl) H02).
    right. exists 1. split; [lia | reflexivity].
  - split; [exact (registry_ok_new false) | split; [exact H13 |]].
    exact (proj1 (proj2 (proj2 (proj2
      (proj2 stream_sockets_follow_array_size Track.kVideo kVideoParamsInput
         [QVariant_null; QVariant_null; QVariant_null] 1%nat Scenario.fresh
         eq_refl (registry_ok_new false) H13))))).
Defined.



(** ** Enabled streams *)

Lemma nth_drop_cons {A} (l : list A) (i : nat) (d : A) :
  (i < length l)%nat -> drop i l = nth i l d :: drop (S i) l.
Proof.
  revert i. induction l as [| x l IH]; intros i H; cbn in H; [lia |].
  destruct i as [| i]; [reflexivity |]. cbn. apply IH. lia.
Qed.

Lemma enabled_video_from_drop s i fuel :
  (i + fuel = length (video_params_array s))%nat ->
  enabled_video_from s i fuel =
    List.filter VideoParams.enabled
                (List.map value_VideoParams (drop i (video_params_array s))).
Proof.
  revert i. induction fuel as [| fuel IH]; intros i H.
  - rewrite drop_ge by lia. reflexivity.
  - cbn [enabled_video_from]. unfold GetVideoParams at 1 2.
    rewrite (nth_drop_cons (video_params_array s) i QVariant_null) by lia.
    cbn [List.map List.filter]. rewrite IH by lia.
    now destruct (VideoParams.enabled (value_VideoParams (nth i (video_params_array s)
                                                              QVariant_null))).
Qed.

Lemma enabled_audio_from_drop s i fuel :
  (i + fuel = length (audio_params_array s))%nat ->
  enabled_audio_from s i fuel =
    List.filter AudioParams.enabled
                (List.map value_AudioParams (drop i (audio_params_array s))).
Proof.
  revert i. induction fuel as [| fuel IH]; intros i H.
  - rewrite drop_ge by lia. reflexivity.
  - cbn [enabled_audio_from]. unfold GetAudioParams at 1 2.
    rewrite (nth_drop_cons (audio_params_array s) i QVariant_null) by lia.
    cbn [List.map List.filter]. rewrite IH by lia.
    now destruct (AudioParams.enabled (value_AudioParams (nth i (audio_params_array s)
                                                              QVariant_null))).
Qed.

Lemma first_enabled_video_hd s i fuel :
  first_enabled_video s i fuel = hd VideoParams.default (enabled_video_from s i fuel).
Proof.
  revert i. induction fuel as [| fuel IH]; intros i; [reflexivity |].
  cbn [first_enabled_video enabled_video_from].
  destruct (VideoParams.enabled (GetVideoParams s i)); [reflexivity | apply IH].
Qed.

Lemma first_enabled_audio_hd s i fuel :
  first_enabled_audio s i fuel = hd AudioParams.default (enabled_audio_from s i fuel).
Proof.
  revert i. induction fuel as [| fuel IH]; intros i; [reflexivity |].
  cbn [first_enabled_audio enabled_audio_from].
  destruct (AudioParams.enabled (GetAudioParams s i)); [reflexivity | apply IH].
Qed.

Lemma GetEnabledVideoStreams_filter s :
  GetEnabledVideoStreams s = List.filter VideoParams.enabled (video_streams s).
Proof.
  unfold GetEnabledVideoStreams, GetVideoStreamCount, video_streams.
  rewrite Nat2Z.id. now rewrite enabled_video_from_drop by lia.
Qed.

Lemma GetEnabledAudioStreams_filter s :
  GetEnabledAudioStreams s = List.filter AudioParams.enabled (audio_streams s).
Proof.
  unfold GetEnabledAudioStreams, GetAudioStreamCount, audio_streams.
  rewrite Nat2Z.id. now rewrite enabled_audio_from_drop by lia.
Qed.

(** ** Duration and rate display *)

Example duration_still_with_audio :
  duration Scenario.graph Scenario.still_with_audio =
    timestamp_to_timecode (timestamp 600000) (1 # 48000) Timecode.kTimecodeSeconds.
Proof. reflexivity. Qed.

Example rate_still_with_audio : rate Scenario.still_with_audio = QString_null.
Proof. reflexivity. Qed.

Example rate_movie_with_audio : rate Scenario.movie_with_audio = tr_FPS 24.
Proof. reflexivity. Qed.

Example rate_audio_only : rate Scenario.audio_only = tr_Hz 48000.
Proof. reflexivity. Qed.

Lemma audio_display_fallback g :
  (if Display_eqb (GetTimecodeDisplay g) Timecode.kTimecodeDropFrame
      || Display_eqb (GetTimecodeDisplay g) Timecode.kTimecodeNonDropFrame
   then Timecode.kTimecodeSeconds else GetTimecodeDisplay g) = Display.audio_display g.
Proof. unfold Display.audio_display. now destruct (GetTimecodeDisplay g). Qed.

Lemma duration_cases g s :
  duration g s =
    if Display.video_applies s then Display.video_duration g s
    else if HasEnabledAudioStreams s then Display.audio_duration g s
    else QString_null.
Proof.
  unfold duration, Display.video_applies, HasEnabledVideoStreams, HasEnabledAudioStreams,
    Display.video_duration, Display.audio_duration.
  cbn zeta. rewrite audio_display_fallback. reflexivity.
Qed.

Lemma rate_cases s :
  rate s =
    if HasEnabledVideoStreams s then
      if Display.video_applies s then Display.video_rate s else QString_null
    else if HasEnabledAudioStreams s then Display.audio_rate s
    else QString_null.
Proof.
  unfold rate, Display.video_applies, Display.video_rate, Display.audio_rate.
  cbn zeta. now destruct (HasEnabledVideoStreams s).
Qed.

Lemma GetFirstEnabledVideoStream_hd s :
  GetFirstEnabledVideoStream s
  = hd VideoParams.default (List.filter VideoParams.enabled (video_streams s)).
Proof.
  unfold GetFirstEnabledVideoStream. rewrite first_enabled_video_hd.
  fold (GetEnabledVideoStreams s). now rewrite GetEnabledVideoStreams_filter.
Qed.

Lemma GetFirstEnabledAudioStream_hd s :
  GetFirstEnabledAudioStream s
  = hd AudioParams.default (List.filter AudioParams.enabled (audio_streams s)).
Proof.
  unfold GetFirstEnabledAudioStream. rewrite first_enabled_audio_hd.
  fold (GetEnabledAudioStreams s). now rewrite GetEnabledAudioStreams_filter.
Qed.

(** C8, as the code has it.  Let [video] be the first enabled descriptor
    of the video parameter array and [audio] that of the audio parameter
    array, a default-constructed and thereby invalid descriptor standing in
    where no stream is enabled.  When [video] is valid and not a still image,
    [duration] is its duration as a timecode at the frame-rate time base and
    [rate] is its frame rate in FPS.  When [video] is invalid or a still
    image, [duration] is the duration of [audio] if that is valid, shown in
    seconds where the display setting is a drop or non-drop frame timecode
    and in the display setting otherwise, and empty if it is not.  [rate]
    gives the sample rate of a valid [audio] only when [video] is invalid:
    when [video] is a valid still image, [rate] is empty whatever the audio
    streams are. *)
Theorem duration_and_rate_by_first_enabled g s :
  let video := hd VideoParams.default (List.filter VideoParams.enabled (video_streams s)) in
  let audio := hd AudioParams.default (List.filter AudioParams.enabled (audio_streams s)) in
  let still :=
    VideoParams.Type_eqb (VideoParams.video_type video) VideoParams.kVideoTypeStill in
  (VideoParams.is_valid video = true -> still = false ->
   duration g s =
     timestamp_to_timecode
       (rescale_timestamp_ceil (VideoParams.duration video) (VideoParams.time_base video)
                               (VideoParams.frame_rate_as_time_base video))
       (VideoParams.frame_rate_as_time_base video) (GetTimecodeDisplay g)
   /\ rate s = tr_FPS (VideoParams.frame_rate video))
  /\ (VideoParams.is_valid video = true -> still = true -> rate s = QString_null)
  /\ (VideoParams.is_valid video = false \/ still = true ->
      AudioParams.is_valid audio = true ->
      duration g s =
        timestamp_to_timecode (timestamp (AudioParams.duration audio))
                              (AudioParams.time_base audio) (Display.audio_display g))
  /\ (VideoParams.is_valid video = false -> AudioParams.is_valid audio = true ->
      rate s = tr_Hz (AudioParams.sample_rate audio))
  /\ (VideoParams.is_valid video = false \/ still = true ->
      AudioParams.is_valid audio = false ->
      duration g s = QString_null)
  /\ (VideoParams.is_valid video = false -> AudioParams.is_valid audio = false ->
      rate s = QString_null)
  /\ Display.audio_display g =
       match GetTimecodeDisplay g with
       | Timecode.kTimecodeDropFrame | Timecode.kTimecodeNonDropFrame =>
           Timecode.kTimecodeSeconds
       | d => d
       end.
Proof.
  cbn zeta. rewrite duration_cases, rate_cases.
  unfold Display.video_applies, Display.video_duration, Display.video_rate,
    Display.audio_duration, Display.audio_rate, HasEnabledVideoStreams,
    HasEnabledAudioStreams.
  cbn zeta. rewrite GetFirstEnabledVideoStream_hd, GetFirstEnabledAudioStream_hd.
  set (video := hd VideoParams.default _).
  set (audio := hd AudioParams.default _).
  split; [| split; [| split; [| split; [| split; [| split]]]]].
  - intros Hv Hs. rewrite Hv, Hs. split; reflexivity.
  - intros Hv Hs. rewrite Hv, Hs. reflexivity.
  - intros [Hv | Hs] Ha; [rewrite Hv | rewrite Hs, andb_false_r]; now rewrite Ha.
  - intros Hv Ha. now rewrite Hv, Ha.
  - intros [Hv | Hs] Ha; [rewrite Hv | rewrite Hs, andb_false_r]; now rewrite Ha.
  - intros Hv Ha. now rewrite Hv, Ha.
  - reflexivity.
Qed.

(** The still image with audio, where [rate] is empty and [duration] is
    the audio's; the movie with audio; the audio alone; and the zero-area
    stream enabled in front of a movie, which makes both queries empty. *)
Lemma duration_and_rate_by_first_enabled_witness :
  (rate Scenario.still_with_audio = QString_null
   /\ duration Scenario.graph Scenario.still_with_audio =
        timestamp_to_timecode (timestamp 600000) (1 # 48000) Timecode.kTimecodeSeconds)
  /\ (duration Scenario.graph Scenario.movie_with_audio =
        timestamp_to_timecode (rescale_timestamp_ceil 240 (1 # 24) (/ 24)) (/ 24)
                              Timecode.kTimecodeDropFrame
      /\ rate Scenario.movie_with_audio = tr_FPS 24)
  /\ rate Scenario.audio_only = tr_Hz 48000
  /\ (duration Scenario.graph ExtraScenario.shadowed = QString_null
      /\ rate ExtraScenario.shadowed = QString_null).
Proof.
  pose proof (duration_and_rate_by_first_enabled Scenario.graph Scenario.still_with_audio)
    as (_ & Hs2 & Hs3 & _).
  pose proof (duration_and_rate_by_first_enabled Scenario.graph Scenario.movie_with_audio)
    as (Hm1 & _).
  pose proof (duration_and_rate_by_first_enabled Scenario.graph Scenario.audio_only)
    as (_ & _ & _ & Ha4 & _).
  pose proof (duration_and_rate_by_first_enabled Scenario.graph ExtraScenario.shadowed)
    as (_ & _ & _ & _ & Hx5 & Hx6 & _).
  split; [split; [exact (Hs2 eq_refl eq_refl) | exact (Hs3 (or_intror eq_refl) eq_refl)] |].
  split; [exact (Hm1 eq_refl eq_refl) |].
  split; [exact (Ha4 eq_refl eq_refl) |].
  split; [exact (Hx5 (or_introl eq_refl) eq_refl) | exact (Hx6 eq_refl eq_refl)].
Defined.

(** ** Custom state *)

Section LoadCustomFacts.

Context {XMLNodeData : Type}.

Lemma LoadCustomArgs_eta (a : @LoadCustomArgs XMLNodeData) :
  mkLoadCustomArgs (arg_reader a) (arg_xml_node_data a) (arg_version a) (arg_cancelled a) = a.
Proof. now destruct a. Qed.

Lemma LoadCustom_body_other (a : @LoadCustomArgs XMLNodeData) s :
  reader_name (arg_reader a) <> "points"%string ->
  LoadCustom_body a s = (Calls_LoadCustom a, s, []).
Proof.
  intros H. unfold LoadCustom_body. apply String.eqb_neq in H. rewrite H.
  now rewrite LoadCustomArgs_eta.
Qed.

(** C10.  When the reader's current element is "points", [LoadCustom]
    loads the timeline points and returns true, however deep it is allowed
    to nest.  For every other element name an activation ends by calling
    [LoadCustom] with the very same arguments on the same node, having done
    nothing else; so no nesting depth is enough for the call to return. *)
Theorem LoadCustom_returns_only_on_points (a : @LoadCustomArgs XMLNodeData) s :
  (reader_name (arg_reader a) = "points"%string ->
   forall depth, LoadCustom (S depth) a s = (Some true, s, [TimelinePoints_Load]))
  /\ (reader_name (arg_reader a) <> "points"%string ->
      LoadCustom_body a s = (Calls_LoadCustom a, s, [])
      /\ forall depth, LoadCustom depth a s = (None, s, [])).
Proof.
  split.
  - intros H depth. cbn [LoadCustom]. unfold mbind, M_bind, bind, LoadCustom_body.
    rewrite H. reflexivity.
  - intros H. split; [now apply LoadCustom_body_other |].
    induction depth as [| depth IH]; [reflexivity |].
    cbn [LoadCustom]. unfold mbind, M_bind, bind.
    rewrite (LoadCustom_body_other a s H), IH. reflexivity.
Qed.

End LoadCustomFacts.

Lemma LoadCustom_returns_only_on_points_witness :
  (reader_name (mkReader "points" []) = "points"%string
   /\ LoadCustom 1 (mkLoadCustomArgs (mkReader "points" []) tt 1 false) Scenario.fresh
      = (Some true, Scenario.fresh, [TimelinePoints_Load]))
  /\ (reader_name (mkReader "markers" []) <> "points"%string
      /\ LoadCustom 1000 (mkLoadCustomArgs (mkReader "markers" []) tt 1 false) Scenario.fresh
         = (None, Scenario.fresh, [])).
Proof.
  assert (Hne : reader_name (mkReader "markers" []) <> "points"%string)
    by (cbn; discriminate).
  split; (split; [reflexivity || exact Hne |]).
  - exact (proj1 (LoadCustom_returns_only_on_points
                    (mkLoadCustomArgs (mkReader "points" []) tt 1 false) Scenario.fresh)
                 eq_refl 0%nat).
  - exact (proj2 (proj2 (LoadCustom_returns_only_on_points
                    (mkLoadCustomArgs (mkReader "markers" []) tt 1 false) Scenario.fresh)
                 Hne) 1000%nat).
Defined.

(** ** Interval cache *)

Module IntervalCacheFacts.
Import IntervalCache.

Example scenario_valid_at_4 :
  IsValid (Validate (mkTimeRange 0 5) 2 (Invalidate (mkTimeRange 0 10) 1 (empty 10))) 4 = true.
Proof. reflexivity. Qed.

Example scenario_invalid_at_7 :
  IsValid (Validate (mkTimeRange 0 5) 2 (Invalidate (mkTimeRange 0 10) 1 (empty 10))) 7 = false.
Proof. reflexivity. Qed.

Example scenario_stale_completion :
  IsValid (Validate (mkTimeRange 0 5) 0 (Invalidate (mkTimeRange 0 10) 3 (empty 10))) 4 = false.
Proof. reflexivity. Qed.

Lemma contains_b_iff r p : TimeRange_contains_b r p = true <-> TimeRange_Contains r p.
Proof.
  unfold TimeRange_contains_b, TimeRange_Contains.
  now rewrite andb_true_iff, Qle_bool_iff, rational_lt_iff.
Qed.

(** The points of the clamped range are those of the range that lie in
    [0, declared length). *)
Lemma clamp_contains_iff c r p :
  TimeRange_Contains (clamp c r) p
  <-> TimeRange_Contains r p /\ (0 <= p)%Q /\ (p < length c)%Q.
Proof.
  unfold TimeRange_Contains, clamp; cbn [range_in range_out].
  destruct (qMax_cases 0 (range_in r)) as [[-> Ha] | [-> Ha]];
    destruct (qMin_cases (length c) (range_out r)) as [[-> Hb] | [-> Hb]];
    split; intros H; repeat split; lra.
Qed.






(** An [Invalidate] leaves alone every point outside its clamped range. *)
Lemma Invalidate_elsewhere c r t p :
  ~ TimeRange_Contains (clamp c r) p -> marker_at (Invalidate r t c) p = marker_at c p.
Proof.
  intros Hn. unfold Invalidate. cbn zeta.
  destruct (Qeq_bool _ _); [reflexivity |].
  unfold marker_at, write; cbn [entries standing range marker].
  rewrite <- contains_b_iff in Hn. apply not_true_is_false in Hn. rewrite Hn.
  now destruct (standing (entries c) p).
Qed.






End IntervalCacheFacts.
(** ** Enabled streams, as lists *)

(** X1.  [GetEnabledVideoStreams] and [GetEnabledAudioStreams] return the
    enabled descriptors of their array in array order, and
    [GetFirstEnabledVideoStream] / [GetFirstEnabledAudioStream] return the
    first element of that list, or a default-constructed descriptor when it
    is empty. *)
Theorem enabled_streams_are_the_filtered_arrays s :
  GetEnabledVideoStreams s = List.filter VideoParams.enabled (video_streams s)
  /\ GetEnabledAudioStreams s = List.filter AudioParams.enabled (audio_streams s)
  /\ GetFirstEnabledVideoStream s = hd VideoParams.default (GetEnabledVideoStreams s)
  /\ GetFirstEnabledAudioStream s = hd AudioParams.default (GetEnabledAudioStreams s).
Proof.
  split; [apply GetEnabledVideoStreams_filter |].
  split; [apply GetEnabledAudioStreams_filter |].
  split; [apply first_enabled_video_hd | apply first_enabled_audio_hd].
Qed.

Example second_enabled_is_found :
  GetFirstEnabledVideoStream ExtraScenario.second_enabled = Scenario.movie.
Proof. reflexivity. Qed.

(** X2.  [HasEnabledVideoStreams] looks at the first enabled video stream
    only: it is false when no stream is enabled, and otherwise it is the
    validity of the first enabled one, so an enabled zero-area stream in
    front hides every valid stream behind it.  The same holds for audio. *)
Theorem HasEnabledVideoStreams_first_only s :
  HasEnabledVideoStreams s =
    match List.filter VideoParams.enabled (video_streams s) with
    | [] => false
    | vp :: _ => VideoParams.is_valid vp
    end
  /\ HasEnabledAudioStreams s =
       match List.filter AudioParams.enabled (audio_streams s) with
       | [] => false
       | ap :: _ => AudioParams.is_valid ap
       end.
Proof.
  rewrite <- GetEnabledVideoStreams_filter, <- GetEnabledAudioStreams_filter.
  unfold HasEnabledVideoStreams, HasEnabledAudioStreams,
    GetFirstEnabledVideoStream, GetFirstEnabledAudioStream.
  rewrite first_enabled_video_hd, first_enabled_audio_hd.
  unfold GetEnabledVideoStreams, GetEnabledAudioStreams.
  split.
  - now destruct (enabled_video_from s 0 (Z.to_nat (GetVideoStreamCount s))).
  - now destruct (enabled_audio_from s 0 (Z.to_nat (GetAudioStreamCount s))).
Qed.

Example shadowed_has_no_enabled_video :
  HasEnabledVideoStreams ExtraScenario.shadowed = false
  /\ rate ExtraScenario.shadowed = QString_null.
Proof. split; reflexivity. Qed.

Lemma video_refs_from_seq s i fuel :
  video_refs_from s i fuel =
    List.map (fun j => Track.Reference.mk Track.kVideo (Z.of_nat j))
             (List.filter (fun j => VideoParams.enabled (GetVideoParams s j)) (List.seq i fuel)).
Proof.
  revert i. induction fuel as [| fuel IH]; intros i; [reflexivity |].
  cbn [video_refs_from List.seq List.filter]. rewrite IH.
  now destruct (VideoParams.enabled (GetVideoParams s i)).
Qed.

Lemma audio_refs_from_seq s i fuel :
  audio_refs_from s i fuel =
    List.map (fun j => Track.Reference.mk Track.kAudio (Z.of_nat j))
             (List.filter (fun j => AudioParams.enabled (GetAudioParams s j)) (List.seq i fuel)).
Proof.
  revert i. induction fuel as [| fuel IH]; intros i; [reflexivity |].
  cbn [audio_refs_from List.seq List.filter]. rewrite IH.
  now destruct (AudioParams.enabled (GetAudioParams s i)).
Qed.

Lemma length_video_refs_from s i fuel :
  length (video_refs_from s i fuel) = length (enabled_video_from s i fuel).
Proof.
  revert i. induction fuel as [| fuel IH]; intros i; [reflexivity |].
  cbn [video_refs_from enabled_video_from].
  destruct (VideoParams.enabled (GetVideoParams s i)); cbn [length]; now rewrite IH.
Qed.

Lemma length_audio_refs_from s i fuel :
  length (audio_refs_from s i fuel) = length (enabled_audio_from s i fuel).
Proof.
  revert i. induction fuel as [| fuel IH]; intros i; [reflexivity |].
  cbn [audio_refs_from enabled_audio_from].
  destruct (AudioParams.enabled (GetAudioParams s i)); cbn [length]; now rewrite IH.
Qed.

Lemma NoDup_List_filter {A} (f : A -> bool) (l : list A) :
  NoDup l -> NoDup (List.filter f l).
Proof.
  induction l as [| x l IH]; intros H; [constructor |].
  apply NoDup_cons in H as [Hx Hl]. cbn [List.filter].
  destruct (f x); [| now apply IH].
  apply NoDup_cons. split; [| now apply IH].
  intros Hin. apply Hx. apply list_elem_of_In in Hin. apply List.filter_In in Hin as [Hin _].
  now apply list_elem_of_In.
Qed.

Lemma In_indices_where p n j : In j (indices_where p n) <-> (j < n)%nat /\ p j = true.
Proof.
  unfold indices_where. rewrite List.filter_In, List.in_seq. intuition lia.
Qed.

(** X3.  [GetEnabledStreamsAsReferences] lists the enabled video streams
    and then the enabled audio streams, each by its array index in
    increasing order and without repetition; it has as many entries as there
    are enabled video and audio streams.  On a node whose stream sockets
    match its streams, every reference it returns names an existing output
    socket. *)
Theorem enabled_references_name_streams s :
  let nv := length (video_params_array s) in
  let na := length (audio_params_array s) in
  let refs := GetEnabledStreamsAsReferences s in
  refs =
    List.map (fun j => Track.Reference.mk Track.kVideo (Z.of_nat j))
             (indices_where (fun j => VideoParams.enabled (GetVideoParams s j)) nv)
    ++ List.map (fun j => Track.Reference.mk Track.kAudio (Z.of_nat j))
                (indices_where (fun j => AudioParams.enabled (GetAudioParams s j)) na)
  /\ NoDup refs
  /\ length refs = (length (GetEnabledVideoStreams s) + length (GetEnabledAudioStreams s))%nat
  /\ (registry_ok s -> forall r, In r refs -> Track.Reference.ToString r ∈ outputs s).
Proof.
  cbn zeta.
  assert (E : GetEnabledStreamsAsReferences s =
    List.map (fun j => Track.Reference.mk Track.kVideo (Z.of_nat j))
             (indices_where (fun j => VideoParams.enabled (GetVideoParams s j))
                            (length (video_params_array s)))
    ++ List.map (fun j => Track.Reference.mk Track.kAudio (Z.of_nat j))
                (indices_where (fun j => AudioParams.enabled (GetAudioParams s j))
                               (length (audio_params_array s)))).
  { unfold GetEnabledStreamsAsReferences, GetVideoStreamCount, GetAudioStreamCount.
    now rewrite !Nat2Z.id, video_refs_from_seq, audio_refs_from_seq. }
  split; [exact E |]. split; [| split].
  - rewrite E. apply NoDup_app. split; [| split].
    + apply NoDup_fmap_2_strong.
      * intros i j _ _ H. injection H as H. lia.
      * unfold indices_where. apply NoDup_List_filter, NoDup_seq.
    + intros r Hv Ha. apply list_elem_of_In in Hv, Ha.
      apply List.in_map_iff in Hv as (i & <- & _).
      apply List.in_map_iff in Ha as (j & H & _). discriminate H.
    + apply NoDup_fmap_2_strong.
      * intros i j _ _ H. injection H as H. lia.
      * unfold indices_where. apply NoDup_List_filter, NoDup_seq.
  - unfold GetEnabledStreamsAsReferences, GetEnabledVideoStreams, GetEnabledAudioStreams.
    now rewrite length_app, length_video_refs_from, length_audio_refs_from.
  - intros Hok r Hr. rewrite E in Hr. apply List.in_app_or in Hr as [Hr | Hr];
      apply List.in_map_iff in Hr as (j & <- & Hj); apply In_indices_where in Hj as [Hj _].
    + apply (Hok Track.kVideo (Z.of_nat j)); [discriminate | cbn; lia].
    + apply (Hok Track.kAudio (Z.of_nat j)); [discriminate | cbn; lia].
Qed.

Example references_of_second_enabled :
  GetEnabledStreamsAsReferences ExtraScenario.second_enabled =
    [Track.Reference.mk Track.kVideo 1; Track.Reference.mk Track.kAudio 0].
Proof. reflexivity. Qed.

Lemma registry_ok_second_enabled : registry_ok ExtraScenario.second_enabled.
Proof.
  intros type i Ht. unfold has_output, socket_name.
  destruct type; [| | contradiction]; cbn [stream_count ExtraScenario.second_enabled
    video_params_array audio_params_array length outputs].
  - split.
    + intros H. apply elem_of_union in H as [H | H];
        [apply elem_of_union in H as [H | H] |];
        apply elem_of_singleton in H;
        change "v:0"%string with (socket_name Track.kVideo 0) in H;
        change "v:1"%string with (socket_name Track.kVideo 1) in H;
        change "a:0"%string with (socket_name Track.kAudio 0) in H;
        apply socket_name_inj in H as [H1 H2]; try discriminate H1; lia.
    + intros H. assert (i = 0 \/ i = 1) as [-> | ->] by lia.
      * apply elem_of_union_l, elem_of_union_l. now apply elem_of_singleton.
      * apply elem_of_union_l, elem_of_union_r. now apply elem_of_singleton.
  - split.
    + intros H. apply elem_of_union in H as [H | H];
        [apply elem_of_union in H as [H | H] |];
        apply elem_of_singleton in H;
        change "v:0"%string with (socket_name Track.kVideo 0) in H;
        change "v:1"%string with (socket_name Track.kVideo 1) in H;
        change "a:0"%string with (socket_name Track.kAudio 0) in H;
        apply socket_name_inj in H as [H1 H2]; try discriminate H1; lia.
    + intros H. assert (i = 0) as -> by lia.
      apply elem_of_union_r. now apply elem_of_singleton.
Qed.

Lemma enabled_references_name_streams_witness :
  registry_ok ExtraScenario.second_enabled
  /\ In (Track.Reference.mk Track.kVideo 1)
        (GetEnabledStreamsAsReferences ExtraScenario.second_enabled)
  /\ Track.Reference.ToString (Track.Reference.mk Track.kVideo 1)
       ∈ outputs ExtraScenario.second_enabled.
Proof.
  assert (Hin : In (Track.Reference.mk Track.kVideo 1)
                   (GetEnabledStreamsAsReferences ExtraScenario.second_enabled))
    by (left; reflexivity).
  split; [exact registry_ok_second_enabled | split; [exact Hin |]].
  exact (proj2 (proj2 (proj2 (enabled_references_name_streams ExtraScenario.second_enabled)))
           registry_ok_second_enabled _ Hin).
Defined.

(** ** Verification, repeated *)

Lemma count_app p l1 l2 : count p (l1 ++ l2) = (count p l1 + count p l2)%nat.
Proof. unfold count. now rewrite List.filter_app, length_app. Qed.

Lemma operation_stack_VerifyLength g s :
  operation_stack_ (state_after (VerifyLength g s)) = operation_stack_ s.
Proof.
  destruct (Z.eq_dec (operation_stack_ s) 0) as [H | H].
  - rewrite (VerifyLength_run g s H). unfold state_after; cbn [fst snd].
    now destruct (rational.neq _ _).
  - now rewrite (VerifyLength_suppressed g s H).
Qed.

Lemma VerifyLength_settled g s :
  operation_stack_ s = 0 ->
  (LengthResolver.resolved_length g == last_length_ s)%Q ->
  state_after (VerifyLength g s) = s
  /\ count is_LengthChanged (calls (VerifyLength g s)) = 0%nat.
Proof.
  intros H E. apply rational_neq_false in E.
  rewrite (count_LengthChanged_VerifyLength g s H), (VerifyLength_run g s H), E.
  split; reflexivity.
Qed.

(** X4.  [VerifyLength] is idempotent: run twice in the same graph, the
    second run leaves the node as the first left it and emits no
    [LengthChanged]; with the operation stack at zero it still sets the
    length of both caches again. *)
Theorem VerifyLength_twice g s :
  let first := VerifyLength g s in
  let second := VerifyLength g (state_after first) in
  state_after second = state_after first
  /\ count is_LengthChanged (calls second) = 0%nat
  /\ (operation_stack_ s = 0 ->
      List.filter is_SetLength (calls second) =
        [Cache_SetLength video_frame_cache_ (LengthResolver.video_length g);
         Cache_SetLength audio_playback_cache_ (LengthResolver.audio_length g)]).
Proof.
  cbn zeta. destruct (Z.eq_dec (operation_stack_ s) 0) as [H | H].
  - assert (H1 : operation_stack_ (state_after (VerifyLength g s)) = 0)
      by now rewrite operation_stack_VerifyLength.
    assert (E : (LengthResolver.resolved_length g
                 == last_length_ (state_after (VerifyLength g s)))%Q)
      by (symmetry; exact (GetLength_after_VerifyLength g s H)).
    destruct (VerifyLength_settled g _ H1 E) as [Hs Hc].
    split; [exact Hs |]. split; [exact Hc |]. intros _.
    exact (filter_SetLength_VerifyLength g _ H1).
  - rewrite (VerifyLength_suppressed g s H).
    change (state_after (tt, s, [])) with s.
    rewrite (VerifyLength_suppressed g s H).
    split; [reflexivity |]. split; [reflexivity |]. intros H0. contradiction.
Qed.

Lemma VerifyLength_twice_witness :
  operation_stack_ Scenario.fresh = 0
  /\ List.filter is_SetLength
       (calls (VerifyLength Scenario.graph
                 (state_after (VerifyLength Scenario.graph Scenario.fresh)))) =
     [Cache_SetLength video_frame_cache_ (LengthResolver.video_length Scenario.graph);
      Cache_SetLength audio_playback_cache_ (LengthResolver.audio_length Scenario.graph)].
Proof.
  split; [reflexivity |].
  exact (proj2 (proj2 (VerifyLength_twice Scenario.graph Scenario.fresh)) eq_refl).
Defined.

(** X5.  With the class's own [GetCustomLength], which declares no length,
    the resolved length is never negative, whatever the connected producers
    report: it is zero when neither input is connected, and otherwise the
    larger of zero and the probed lengths.  The memoized length after a
    [VerifyLength] at stack zero is therefore never negative. *)
Theorem base_length_not_negative g s :
  (forall type, GetCustomLength g type = ViewerOutput_GetCustomLength type) ->
  let v := if IsInputConnected g kTextureInput
           then LengthResolver.probe_length g kTextureInput else 0%Q in
  let a := if IsInputConnected g kSamplesInput
           then LengthResolver.probe_length g kSamplesInput else 0%Q in
  LengthResolver.resolved_length g = qMax 0 (qMax v a)
  /\ (0 <= LengthResolver.resolved_length g)%Q
  /\ (IsInputConnected g kTextureInput = false -> IsInputConnected g kSamplesInput = false ->
      LengthResolver.resolved_length g = 0%Q)
  /\ (operation_stack_ s = 0 -> (0 <= GetLength (state_after (VerifyLength g s)))%Q).
Proof.
  intros Hbase. cbn zeta.
  assert (E : LengthResolver.resolved_length g =
              qMax 0 (qMax (if IsInputConnected g kTextureInput
                            then LengthResolver.probe_length g kTextureInput else 0%Q)
                           (if IsInputConnected g kSamplesInput
                            then LengthResolver.probe_length g kSamplesInput else 0%Q))).
  { unfold LengthResolver.resolved_length, LengthResolver.subtitle_length,
      LengthResolver.video_length, LengthResolver.audio_length,
      LengthResolver.candidate_length, LengthResolver.probes.
    rewrite !Hbase. unfold ViewerOutput_GetCustomLength. reflexivity. }
  assert (Hnn : (0 <= LengthResolver.resolved_length g)%Q)
    by (rewrite E; apply qMax_ge_l).
  split; [exact E |]. split; [exact Hnn |]. split.
  - intros Ht Hs. rewrite E, Ht, Hs. reflexivity.
  - intros H. rewrite (GetLength_after_VerifyLength g s H). exact Hnn.
Qed.

Lemma base_length_not_negative_witness :
  (forall type, GetCustomLength ExtraScenario.negative type = ViewerOutput_GetCustomLength type)
  /\ operation_stack_ Scenario.fresh = 0
  /\ (0 <= GetLength (state_after (VerifyLength ExtraScenario.negative Scenario.fresh)))%Q.
Proof.
  assert (Hbase : forall type,
             GetCustomLength ExtraScenario.negative type = ViewerOutput_GetCustomLength type)
    by reflexivity.
  split; [exact Hbase | split; [reflexivity |]].
  exact (proj2 (proj2 (proj2
    (base_length_not_negative ExtraScenario.negative Scenario.fresh Hbase))) eq_refl).
Defined.

Example negative_producer_resolves_to_zero :
  LengthResolver.probe_length ExtraScenario.negative kTextureInput = (-3)%Q
  /\ LengthResolver.resolved_length ExtraScenario.negative = 0%Q.
Proof. split; reflexivity. Qed.

(** ** Notifications in a row *)

Lemma count_LengthChanged_invalidate_calls s range from job_time :
  count is_LengthChanged (invalidate_calls s range from job_time) = 0%nat.
Proof.
  unfold invalidate_calls. destruct (is_tracked from); [| reflexivity]. cbn zeta.
  now destruct (rational.neq _ _).
Qed.

Lemma count_SetLength_invalidate_calls s range from job_time :
  count is_SetLength (invalidate_calls s range from job_time) = 0%nat.
Proof.
  unfold invalidate_calls. destruct (is_tracked from); [| reflexivity]. cbn zeta.
  now destruct (rational.neq _ _).
Qed.

Lemma count_SetLength_VerifyLength g s :
  operation_stack_ s = 0 -> count is_SetLength (calls (VerifyLength g s)) = 2%nat.
Proof. intros H. unfold count. now rewrite (filter_SetLength_VerifyLength g s H). Qed.

(** Every notification delivered with the stack at zero is verified. *)
Lemma deliver_verifies_each l s :
  operation_stack_ s = 0 ->
  operation_stack_ (state_after (deliver l s)) = 0
  /\ count is_SetLength (calls (deliver l s)) = (2 * length l)%nat.
Proof.
  revert s. induction l as [| i rest IH]; intros s H; [split; [exact H | reflexivity] |].
  cbn [deliver]. unfold mbind, M_bind, bind.
  rewrite (InvalidateCache_run _ s _ _ _ _ H).
  assert (H1 : operation_stack_ (state_after (VerifyLength (inv_graph i) s)) = 0)
    by now rewrite operation_stack_VerifyLength.
  destruct (IH _ H1) as [Hs Hc].
  destruct (deliver rest (state_after (VerifyLength (inv_graph i) s))) as [[[] s2] e2].
  unfold state_after, calls in *; cbn [fst snd] in *.
  split; [exact Hs |].
  fold (calls (VerifyLength (inv_graph i) s)).
  rewrite !count_app, count_SetLength_invalidate_calls, Hc.
  rewrite (count_SetLength_VerifyLength _ s H). cbn [length count List.filter is_SetLength].
  lia.
Qed.

Lemma deliver_settled g l s :
  Forall (fun i => inv_graph i = g) l ->
  operation_stack_ s = 0 ->
  (LengthResolver.resolved_length g == last_length_ s)%Q ->
  state_after (deliver l s) = s
  /\ count is_LengthChanged (calls (deliver l s)) = 0%nat.
Proof.
  intros Hl H E. induction Hl as [| i rest Hi Hrest IH]; [split; reflexivity |].
  cbn [deliver]. unfold mbind, M_bind, bind.
  rewrite (InvalidateCache_run _ s _ _ _ _ H), Hi.
  destruct (VerifyLength_settled g s H E) as [Hs Hc]. rewrite Hs.
  destruct IH as [IHs IHc].
  destruct (deliver rest s) as [[[] s2] e2].
  unfold state_after, calls in IHs, IHc |- *; cbn [fst snd] in IHs, IHc |- *.
  split; [exact IHs |].
  fold (calls (VerifyLength g s)).
  rewrite !count_app, count_LengthChanged_invalidate_calls, Hc, IHc. reflexivity.
Qed.

(** X6.  However many notifications arrive one after another with the
    operation stack at zero while the graph stays the same, [LengthChanged]
    is emitted at most once, by the first of them and only if the resolved
    length differs from the memoized one; every one of them still sets the
    length of both caches, and afterwards the node holds the resolved
    length. *)
Theorem one_notification_per_change g i rest s :
  Forall (fun j => inv_graph j = g) (i :: rest) ->
  operation_stack_ s = 0 ->
  let r := deliver (i :: rest) s in
  count is_LengthChanged (calls r) =
    (if rational.neq (LengthResolver.resolved_length g) (GetLength s) then 1 else 0)%nat
  /\ count is_SetLength (calls r) = (2 * length (i :: rest))%nat
  /\ state_after r = state_after (VerifyLength g s)
  /\ (GetLength (state_after r) == LengthResolver.resolved_length g)%Q.
Proof.
  intros Hl H. cbn zeta.
  split; [| split; [exact (proj2 (deliver_verifies_each (i :: rest) s H)) |]].
  - apply Forall_cons in Hl as [Hi Hrest].
    cbn [deliver]. unfold mbind, M_bind, bind.
    rewrite (InvalidateCache_run _ s _ _ _ _ H), Hi.
    assert (H1 : operation_stack_ (state_after (VerifyLength g s)) = 0)
      by now rewrite operation_stack_VerifyLength.
    assert (E : (LengthResolver.resolved_length g
                 == last_length_ (state_after (VerifyLength g s)))%Q)
      by (symmetry; exact (GetLength_after_VerifyLength g s H)).
    destruct (deliver_settled g rest _ Hrest H1 E) as [_ Hc].
    destruct (deliver rest (state_after (VerifyLength g s))) as [[[] s2] e2].
    unfold calls in Hc |- *; cbn [fst snd] in Hc |- *.
    fold (calls (VerifyLength g s)).
    rewrite !count_app, count_LengthChanged_invalidate_calls, Hc.
    rewrite (count_LengthChanged_VerifyLength g s H). unfold GetLength.
    cbn [count List.filter is_LengthChanged length]. lia.
  - apply Forall_cons in Hl as [Hi Hrest].
    assert (Hst : state_after (deliver (i :: rest) s) = state_after (VerifyLength g s)).
    { cbn [deliver]. unfold mbind, M_bind, bind.
      rewrite (InvalidateCache_run _ s _ _ _ _ H), Hi.
      assert (H1 : operation_stack_ (state_after (VerifyLength g s)) = 0)
        by now rewrite operation_stack_VerifyLength.
      assert (E : (LengthResolver.resolved_length g
                   == last_length_ (state_after (VerifyLength g s)))%Q)
        by (symmetry; exact (GetLength_after_VerifyLength g s H)).
      destruct (deliver_settled g rest _ Hrest H1 E) as [Hs _].
      destruct (deliver rest (state_after (VerifyLength g s))) as [[[] s2] e2].
      exact Hs. }
    split; [exact Hst |]. rewrite Hst. exact (GetLength_after_VerifyLength g s H).
Qed.

Lemma one_notification_per_change_witness :
  Forall (fun j => inv_graph j = Scenario.graph) BatchScenario.changes
  /\ operation_stack_ Scenario.fresh = 0
  /\ count is_LengthChanged (calls (deliver BatchScenario.changes Scenario.fresh)) = 1%nat.
Proof.
  assert (Hl : Forall (fun j => inv_graph j = Scenario.graph) BatchScenario.changes)
    by (repeat constructor).
  split; [exact Hl | split; [reflexivity |]].
  exact (proj1 (one_notification_per_change Scenario.graph _ _ Scenario.fresh Hl eq_refl)).
Defined.

(** ** Nested operations *)

Lemma set_operation_stack_twice a b s :
  set_operation_stack a (set_operation_stack b s) = set_operation_stack a s.
Proof. reflexivity. Qed.

Lemma set_operation_stack_same s : set_operation_stack (operation_stack_ s) s = s.
Proof. now destruct s. Qed.

Lemma times_BeginOperation k s :
  times k BeginOperation s =
    (tt, set_operation_stack (operation_stack_ s + Z.of_nat k) s,
     repeat super_BeginOperation k).
Proof.
  revert s. induction k as [| k IH]; intros s.
  - cbn. now rewrite Z.add_0_r, set_operation_stack_same.
  - cbn [times]. unfold mbind, M_bind, bind. rewrite BeginOperation_run, IH.
    cbn [operation_stack_ set_operation_stack repeat app].
    rewrite set_operation_stack_twice.
    replace (operation_stack_ s + Z.of_nat (S k)) with (operation_stack_ s + 1 + Z.of_nat k)
      by lia.
    reflexivity.
Qed.

Lemma times_EndOperation j s :
  times j EndOperation s =
    (tt, set_operation_stack (operation_stack_ s - Z.of_nat j) s,
     repeat super_EndOperation j).
Proof.
  revert s. induction j as [| j IH]; intros s.
  - cbn. now rewrite Z.sub_0_r, set_operation_stack_same.
  - cbn [times]. unfold mbind, M_bind, bind. rewrite EndOperation_run, IH.
    cbn [operation_stack_ set_operation_stack repeat app].
    rewrite set_operation_stack_twice.
    replace (operation_stack_ s - Z.of_nat (S j)) with (operation_stack_ s - 1 - Z.of_nat j)
      by lia.
    reflexivity.
Qed.

(** X7.  The operation stack is a plain counter: [k] calls of
    [BeginOperation] followed by [j] calls of [EndOperation] change
    nothing of the node but the counter, which moves by [k - j], and are each
    passed on to the base class.  Started from zero, the node is as it was
    when [j = k]; when [j <> k], also when there were more ends than begins,
    [VerifyLength] does nothing and [InvalidateCache] only forwards. *)
Theorem operations_nest g k j s :
  let inside := state_after (times j EndOperation (state_after (times k BeginOperation s))) in
  inside = set_operation_stack (operation_stack_ s + Z.of_nat k - Z.of_nat j) s
  /\ calls (times k BeginOperation s) = repeat super_BeginOperation k
  /\ calls (times j EndOperation (state_after (times k BeginOperation s)))
     = repeat super_EndOperation j
  /\ (j = k -> inside = s)
  /\ (operation_stack_ s = 0 -> j <> k ->
      VerifyLength g inside = (tt, inside, [])
      /\ forall range from element job_time,
           InvalidateCache g range from element job_time inside =
             (tt, inside, [super_InvalidateCache range from element job_time])).
Proof.
  cbn zeta. rewrite times_BeginOperation.
  change (state_after (tt, ?x, ?e)) with x.
  unfold state_after at 1 2 3 4 5; cbn [fst snd].
  rewrite times_EndOperation. unfold calls; cbn [fst snd operation_stack_ set_operation_stack].
  rewrite set_operation_stack_twice.
  split; [reflexivity |]. split; [reflexivity |]. split; [reflexivity |]. split.
  - intros ->. replace (operation_stack_ s + Z.of_nat k - Z.of_nat k) with (operation_stack_ s)
      by lia. apply set_operation_stack_same.
  - intros H0 Hne.
    assert (Hn : operation_stack_
                   (set_operation_stack (operation_stack_ s + Z.of_nat k - Z.of_nat j) s) <> 0)
      by (cbn; lia).
    split; [now apply VerifyLength_suppressed |].
    intros. now apply InvalidateCache_suppressed.
Qed.

Lemma operations_nest_witness :
  (1%nat = 1%nat
   /\ state_after (times 1 EndOperation (state_after (times 1 BeginOperation Scenario.fresh)))
      = Scenario.fresh)
  /\ (operation_stack_ Scenario.fresh = 0 /\ 1%nat <> 0%nat
      /\ VerifyLength Scenario.graph
           (state_after (times 1 EndOperation
                           (state_after (times 0 BeginOperation Scenario.fresh))))
         = (tt, state_after (times 1 EndOperation
                               (state_after (times 0 BeginOperation Scenario.fresh))), [])).
Proof.
  assert (Hne : 1%nat <> 0%nat) by discriminate.
  split.
  - split; [reflexivity |].
    exact (proj1 (proj2 (proj2 (proj2
      (operations_nest Scenario.graph 1 1 Scenario.fresh)))) eq_refl).
  - split; [reflexivity | split; [exact Hne |]].
    exact (proj1 (proj2 (proj2 (proj2 (proj2
      (operations_nest Scenario.graph 0 1 Scenario.fresh)))) eq_refl Hne)).
Defined.

(** ** Disconnections and the destructor *)

Module ConnectionFacts.
Import Connection.

Lemma DisconnectAll_suppressed l s :
  operation_stack_ s <> 0 -> DisconnectAll l s = (s, flat_map suppressed l).
Proof.
  intros H. induction l as [| n rest IH]; [reflexivity |].
  cbn [DisconnectAll flat_map]. destruct n as [input element output | i]; cbn [notify suppressed].
  - now rewrite IH.
  - rewrite (InvalidateCache_suppressed _ s _ _ _ _ H).
    unfold state_after, calls; cbn [fst snd List.map]. now rewrite IH.
Qed.

Lemma filter_node_call_suppressed p l :
  (forall i, p (forwarded i) = false) ->
  List.filter (is_node_call p) (flat_map suppressed l) = [].
Proof.
  intros Hp. induction l as [| n rest IH]; [reflexivity |].
  cbn [flat_map]. rewrite List.filter_app, IH, app_nil_r.
  destruct n as [input element output | i]; cbn [suppressed].
  - unfold InputDisconnectedEvent. now destruct (String.eqb input kTextureInput).
  - cbn [List.filter is_node_call]. now rewrite Hp.
Qed.

Lemma filter_TextureInputChanged_node_calls es :
  List.filter is_TextureInputChanged (List.map node_call es) = [].
Proof. induction es as [| e es IH]; [reflexivity | exact IH]. Qed.

Lemma filter_node_call_map p es :
  List.filter (is_node_call p) (List.map node_call es) = List.map node_call (List.filter p es).
Proof.
  induction es as [| e es IH]; [reflexivity |].
  cbn [List.map List.filter is_node_call]. rewrite IH. now destruct (p e).
Qed.

(** The signal is emitted for every disconnection of the texture input,
    whatever the operation stack is. *)
Lemma TextureInputChanged_DisconnectAll l s :
  length (List.filter is_TextureInputChanged (snd (DisconnectAll l s)))
  = length (List.filter disconnects_texture l).
Proof.
  revert s. induction l as [| n rest IH]; intros s; [reflexivity |].
  cbn [DisconnectAll]. destruct n as [input element output | i]; cbn [notify].
  - specialize (IH s). destruct (DisconnectAll rest s) as [s2 c2]. cbn [snd] in IH |- *.
    rewrite List.filter_app, length_app, IH. cbn [List.filter disconnects_texture].
    unfold InputDisconnectedEvent. now destruct (String.eqb input kTextureInput).
  - match goal with |- context [DisconnectAll rest ?s1] =>
      specialize (IH s1); destruct (DisconnectAll rest s1) as [s2 c2] end.
    cbn [snd] in IH |- *.
    rewrite List.filter_app, filter_TextureInputChanged_node_calls. exact IH.
Qed.

(** With the stack at zero every [InvalidateCache] is verified. *)
Lemma DisconnectAll_verifies_each l s :
  operation_stack_ s = 0 ->
  length (List.filter (is_node_call is_SetLength) (snd (DisconnectAll l s)))
  = (2 * length (List.filter is_invalidated l))%nat.
Proof.
  revert s. induction l as [| n rest IH]; intros s H; [reflexivity |].
  cbn [DisconnectAll]. destruct n as [input element output | i]; cbn [notify].
  - specialize (IH s H). destruct (DisconnectAll rest s) as [s2 c2]. cbn [snd] in IH |- *.
    rewrite List.filter_app, length_app, IH. cbn [List.filter is_invalidated].
    unfold InputDisconnectedEvent. now destruct (String.eqb input kTextureInput).
  - rewrite (InvalidateCache_run _ s _ _ _ _ H).
    unfold state_after at 1, calls at 1; cbn [fst snd].
    assert (H1 : operation_stack_ (state_after (VerifyLength (inv_graph i) s)) = 0)
      by now rewrite operation_stack_VerifyLength.
    specialize (IH _ H1).
    destruct (DisconnectAll rest (state_after (VerifyLength (inv_graph i) s))) as [s2 c2].
    cbn [snd] in IH |- *.
    rewrite List.filter_app, length_app, IH, filter_node_call_map, length_map.
    pose proof (count_SetLength_invalidate_calls s (inv_range i) (inv_from i) (inv_job_time i))
      as C1.
    pose proof (count_SetLength_VerifyLength (inv_graph i) s H) as C2.
    unfold count in C1, C2.
    change (calls (tt, state_after (VerifyLength (inv_graph i) s),
                   invalidate_calls s (inv_range i) (inv_from i) (inv_job_time i)
                   ++ calls (VerifyLength (inv_graph i) s)
                   ++ [super_InvalidateCache (inv_range i) (inv_from i) (inv_element i)
                                             (inv_job_time i)]))
      with (invalidate_calls s (inv_range i) (inv_from i) (inv_job_time i)
            ++ calls (VerifyLength (inv_graph i) s)
            ++ [super_InvalidateCache (inv_range i) (inv_from i) (inv_element i)
                                      (inv_job_time i)]).
    rewrite !List.filter_app, !length_app, C1, C2.
    cbn [List.filter is_SetLength is_invalidated length]. lia.
Qed.

Lemma ViewerOutput_delete_run l s :
  ViewerOutput_delete l s =
    let '(s2, c2) := DisconnectAll l (set_operation_stack (operation_stack_ s + 1) s) in
    (set_operation_stack (operation_stack_ s2 - 1) s2,
     [node_call super_BeginOperation] ++ c2 ++ [node_call super_EndOperation]).
Proof. reflexivity. Qed.

(** X8.  The destructor's [BeginOperation(); DisconnectAll();
    EndOperation();] keeps the graph from being traversed whenever the
    operation stack is not -1 on entry: whatever disconnections and changes
    are notified meanwhile, the node is left as it was, every
    [InvalidateCache] is only passed on to the base class, and no cache is
    touched, no table generated and no [LengthChanged] emitted.
    [TextureInputChanged] is not held back: it is emitted once for every
    disconnection of the texture input, whatever the operation stack is.
    Entered with the stack at -1, the same sequence verifies the length at
    every [InvalidateCache]. *)
Theorem destructor_suppresses_traversal l s :
  let r := ViewerOutput_delete l s in
  (operation_stack_ s <> -1 ->
   r = (s, [node_call super_BeginOperation] ++ flat_map suppressed l
           ++ [node_call super_EndOperation])
   /\ List.filter (is_node_call is_cache_mutation) (snd r) = []
   /\ List.filter (is_node_call is_length_recompute) (snd r) = [])
  /\ length (List.filter is_TextureInputChanged (snd r))
     = length (List.filter disconnects_texture l)
  /\ (operation_stack_ s = -1 ->
      length (List.filter (is_node_call is_SetLength) (snd r))
      = (2 * length (List.filter is_invalidated l))%nat).
Proof.
  cbn zeta. rewrite ViewerOutput_delete_run.
  split; [| split].
  - intros H. rewrite DisconnectAll_suppressed by (cbn; lia).
    cbn [operation_stack_ set_operation_stack].
    rewrite set_operation_stack_twice.
    replace (operation_stack_ s + 1 - 1) with (operation_stack_ s) by lia.
    rewrite set_operation_stack_same.
    split; [reflexivity |]. cbn [snd].
    split.
    + cbn [app List.filter is_node_call is_cache_mutation is_Invalidate is_SetLength orb].
      rewrite List.filter_app, filter_node_call_suppressed by reflexivity. reflexivity.
    + cbn [app List.filter is_node_call is_length_recompute is_SetLength is_GenerateTable
             is_LengthChanged orb].
      rewrite List.filter_app, filter_node_call_suppressed by reflexivity. reflexivity.
  - pose proof (TextureInputChanged_DisconnectAll l
                  (set_operation_stack (operation_stack_ s + 1) s)) as Ht.
    destruct (DisconnectAll l (set_operation_stack (operation_stack_ s + 1) s)) as [s2 c2].
    cbn [snd] in Ht |- *. cbn [app List.filter is_TextureInputChanged].
    rewrite List.filter_app, length_app, Ht. cbn. lia.
  - intros H.
    assert (H0 : operation_stack_ (set_operation_stack (operation_stack_ s + 1) s) = 0)
      by (cbn; lia).
    pose proof (DisconnectAll_verifies_each l _ H0) as Hc.
    destruct (DisconnectAll l (set_operation_stack (operation_stack_ s + 1) s)) as [s2 c2].
    cbn [snd] in Hc |- *. cbn [app List.filter is_node_call is_SetLength].
    rewrite List.filter_app, length_app, Hc. cbn. lia.
Qed.

Lemma destructor_suppresses_traversal_witness :
  operation_stack_ Scenario.fresh <> -1
  /\ fst (ViewerOutput_delete ExtraScenario.teardown Scenario.fresh) = Scenario.fresh
  /\ List.filter (is_node_call is_length_recompute)
       (snd (ViewerOutput_delete ExtraScenario.teardown Scenario.fresh)) = []
  /\ length (List.filter is_TextureInputChanged
               (snd (ViewerOutput_delete ExtraScenario.teardown Scenario.fresh))) = 1%nat.
Proof.
  assert (H : operation_stack_ Scenario.fresh <> -1) by (vm_compute; discriminate).
  pose proof (destructor_suppresses_traversal ExtraScenario.teardown Scenario.fresh)
    as (Hq & Ht & _).
  destruct (Hq H) as (Hr & _ & Hl).
  split; [exact H |].
  split; [now rewrite Hr |].
  split; [exact Hl | exact Ht].
Defined.

Example destructor_at_minus_one :
  length (List.filter (is_node_call is_SetLength)
            (snd (ViewerOutput_delete ExtraScenario.teardown
                    (set_operation_stack (-1) Scenario.fresh)))) = 4%nat.
Proof. reflexivity. Qed.

End ConnectionFacts.

(** ** What reaches the caches *)




(** ** Adding streams, reading them back *)

Lemma nth_app_last (a : list QVariant) v :
  nth (length a) (a ++ [v]) QVariant_null = v.
Proof.
  rewrite List.app_nth2 by lia. now rewrite Nat.sub_diag.
Qed.

(** X10.  [AddStream] returns -1 and leaves the node alone for a medium
    that is neither video nor audio.  For video (and likewise audio) it
    returns the previous stream count, after which the stream at the
    returned index is the value passed in, every earlier stream and the
    other medium's streams are untouched, there is one stream more, and the
    enabled streams are the previous ones followed by the new one if it is
    enabled. *)
Theorem AddStream_stores_value v s :
  AddStream Track.kSubtitle v s = (-1, s, [])
  /\ (let r := AddStream Track.kVideo v s in
      let s' := state_after r in
      result r = GetVideoStreamCount s
      /\ 0 <= result r
      /\ GetVideoParams s' (Z.to_nat (result r)) = value_VideoParams v
      /\ (forall j, (j < length (video_params_array s))%nat ->
            GetVideoParams s' j = GetVideoParams s j)
      /\ GetVideoStreamCount s' = GetVideoStreamCount s + 1
      /\ audio_params_array s' = audio_params_array s
      /\ GetEnabledVideoStreams s' =
           GetEnabledVideoStreams s
           ++ (if VideoParams.enabled (value_VideoParams v) then [value_VideoParams v] else []))
  /\ (let r := AddStream Track.kAudio v s in
      let s' := state_after r in
      result r = GetAudioStreamCount s
      /\ 0 <= result r
      /\ GetAudioParams s' (Z.to_nat (result r)) = value_AudioParams v
      /\ (forall j, (j < length (audio_params_array s))%nat ->
            GetAudioParams s' j = GetAudioParams s j)
      /\ GetAudioStreamCount s' = GetAudioStreamCount s + 1
      /\ video_params_array s' = video_params_array s
      /\ GetEnabledAudioStreams s' =
           GetEnabledAudioStreams s
           ++ (if AudioParams.enabled (value_AudioParams v) then [value_AudioParams v] else [])).
Proof.
  split; [reflexivity |]. split; cbn zeta.
  - rewrite AddStream_video. unfold result, state_after; cbn [fst snd stream_count].
    unfold GetVideoStreamCount, GetVideoParams;
      cbn [video_params_array audio_params_array].
    rewrite Nat2Z.id, nth_app_last, length_app. cbn [length].
    split; [reflexivity |]. split; [lia |]. split; [reflexivity |]. split; [| split; [lia |]].
    + intros j Hj. now rewrite List.app_nth1 by lia.
    + split; [reflexivity |].
      rewrite !GetEnabledVideoStreams_filter. unfold video_streams.
      cbn [video_params_array]. rewrite List.map_app, List.filter_app. reflexivity.
  - rewrite AddStream_audio. unfold result, state_after; cbn [fst snd stream_count].
    unfold GetAudioStreamCount, GetAudioParams;
      cbn [video_params_array audio_params_array].
    rewrite Nat2Z.id, nth_app_last, length_app. cbn [length].
    split; [reflexivity |]. split; [lia |]. split; [reflexivity |]. split; [| split; [lia |]].
    + intros j Hj. now rewrite List.app_nth1 by lia.
    + split; [reflexivity |].
      rewrite !GetEnabledAudioStreams_filter. unfold audio_streams.
      cbn [audio_params_array]. rewrite List.map_app, List.filter_app. reflexivity.
Qed.

Lemma AddStream_stores_value_witness :
  (0 < length (video_params_array Scenario.still_with_audio))%nat
  /\ GetVideoParams
       (state_after (AddStream Track.kVideo (QVariant_VideoParams Scenario.movie)
                               Scenario.still_with_audio)) 0
     = GetVideoParams Scenario.still_with_audio 0.
Proof.
  assert (H : (0 < length (video_params_array Scenario.still_with_audio))%nat) by (cbn; lia).
  split; [exact H |].
  exact (proj1 (proj2 (proj2 (proj2 (proj1 (proj2
    (AddStream_stores_value (QVariant_VideoParams Scenario.movie)
                            Scenario.still_with_audio)))))) 0%nat H).
Defined.

(** ** Resizing back *)

Lemma set_outputs_twice a b s : set_outputs a (set_outputs b s) = set_outputs a s.
Proof. reflexivity. Qed.

(** X11.  Growing a parameter array from [a] to [b] and shrinking it back
    leaves the node exactly as it was, provided none of the sockets
    [a, b) existed before; shrinking from [b] to [a] and growing back does
    so provided all of them existed.  An input that is neither parameter
    array is ignored by [InputResized]. *)
Theorem InputResized_round_trip type id a b s :
  params_input type = Some id -> a <= b ->
  ((forall i, a <= i < b -> ~ has_output s type i) ->
   state_after (InputResized id b a (state_after (InputResized id a b s))) = s)
  /\ ((forall i, a <= i < b -> has_output s type i) ->
      state_after (InputResized id a b (state_after (InputResized id b a s))) = s)
  /\ (forall input, input <> kVideoParamsInput -> input <> kAudioParamsInput ->
      InputResized input a b s = (tt, s, []) /\ InputResized input b a s = (tt, s, [])).
Proof.
  intros Hid Hab. split; [| split].
  - intros Hnone. rewrite !(InputResized_run type id _ _ _ Hid).
    unfold state_after; cbn [fst snd outputs set_outputs].
    rewrite set_outputs_twice.
    destruct (Z.ltb_spec a b) as [L | L].
    + replace (b <? a) with false by (symmetry; apply Z.ltb_ge; lia).
      replace ((outputs s ∪ stream_sockets type a b) ∖ stream_sockets type a b)
        with (outputs s); [apply set_outputs_id |].
      apply set_eq. intros name.
      rewrite elem_of_difference, elem_of_union. split.
      * intros H. split; [now left |]. intros Hs.
        apply elem_of_stream_sockets in Hs as (i & Hi & ->). exact (Hnone i Hi H).
      * intros [[H | H] Hn]; [exact H | contradiction].
    + assert (a = b) as -> by lia. rewrite Z.ltb_irrefl. apply set_outputs_id.
  - intros Hall. rewrite !(InputResized_run type id _ _ _ Hid).
    unfold state_after; cbn [fst snd outputs set_outputs].
    rewrite set_outputs_twice.
    destruct (Z.ltb_spec a b) as [L | L].
    + replace (b <? a) with false by (symmetry; apply Z.ltb_ge; lia).
      replace ((outputs s ∖ stream_sockets type a b) ∪ stream_sockets type a b)
        with (outputs s); [apply set_outputs_id |].
      apply set_eq. intros name.
      rewrite elem_of_union, elem_of_difference. split.
      * intros H. destruct (decide (name ∈ stream_sockets type a b)) as [Hd | Hd];
          [now right | now left].
      * intros [[H _] | Hs]; [exact H |].
        apply elem_of_stream_sockets in Hs as (i & Hi & ->). exact (Hall i Hi).
    + assert (a = b) as -> by lia. rewrite Z.ltb_irrefl. apply set_outputs_id.
  - intros input Hv Ha. unfold InputResized.
    apply String.eqb_neq in Hv, Ha. rewrite Hv, Ha. split; reflexivity.
Qed.

Lemma InputResized_round_trip_witness :
  params_input Track.kVideo = Some kVideoParamsInput
  /\ 0 <= 2
  /\ (forall i, 0 <= i < 2 -> ~ has_output Scenario.fresh Track.kVideo i)
  /\ state_after (InputResized kVideoParamsInput 2 0
                    (state_after (InputResized kVideoParamsInput 0 2 Scenario.fresh)))
     = Scenario.fresh.
Proof.
  assert (Hab : 0 <= 2) by lia.
  assert (Hnone : forall i, 0 <= i < 2 -> ~ has_output Scenario.fresh Track.kVideo i).
  { intros i _ H. unfold has_output in H. cbn in H. now apply elem_of_empty in H. }
  split; [reflexivity | split; [exact Hab | split; [exact Hnone |]]].
  exact (proj1 (InputResized_round_trip Track.kVideo kVideoParamsInput 0 2 Scenario.fresh
                  eq_refl Hab) Hnone).
Defined.

(** ** Duration and rate together *)

(** X12.  [rate] and [duration] agree on the stream they describe: when
    [rate] is a frame rate, [duration] is the video stream's timecode; when
    [rate] is a sample rate, [duration] is the audio stream's; and when
    [duration] is empty so is [rate].  [rate] is never a timecode and
    [duration] is never a rate. *)
Theorem rate_and_duration_agree g s :
  (forall q, rate s = tr_FPS q ->
     duration g s = Display.video_duration g s
     /\ q = VideoParams.frame_rate (GetFirstEnabledVideoStream s))
  /\ (forall z, rate s = tr_Hz z ->
        duration g s = Display.audio_duration g s
        /\ z = AudioParams.sample_rate (GetFirstEnabledAudioStream s))
  /\ (duration g s = QString_null -> rate s = QString_null)
  /\ (forall t b d, rate s <> timestamp_to_timecode t b d)
  /\ (forall q, duration g s <> tr_FPS q)
  /\ (forall z, duration g s <> tr_Hz z).
Proof.
  rewrite duration_cases, rate_cases.
  unfold Display.video_applies, Display.video_duration, Display.audio_duration,
    Display.video_rate, Display.audio_rate. cbn zeta.
  destruct (HasEnabledVideoStreams s);
    destruct (negb (VideoParams.Type_eqb
                      (VideoParams.video_type (GetFirstEnabledVideoStream s))
                      VideoParams.kVideoTypeStill));
    destruct (HasEnabledAudioStreams s); cbn [andb];
    (split; [intros q H; try discriminate H; injection H as <-; split; reflexivity |]);
    (split; [intros z H; try discriminate H; injection H as <-; split; reflexivity |]);
    (split; [intros H; try discriminate H; reflexivity |]);
    (split; [intros t b d H; discriminate H |]);
    (split; [intros q H; discriminate H | intros z H; discriminate H]).
Qed.

Lemma rate_and_duration_agree_witness :
  rate Scenario.audio_only = tr_Hz 48000
  /\ duration Scenario.graph Scenario.audio_only
     = Display.audio_duration Scenario.graph Scenario.audio_only.
Proof.
  assert (H : rate Scenario.audio_only = tr_Hz 48000) by reflexivity.
  split; [exact H |].
  exact (proj1 (proj1 (proj2 (rate_and_duration_agree Scenario.graph Scenario.audio_only))
                  48000 H)).
Defined.

(** ** Parameter changes *)

Module ParamsChangedFacts.
Import ParamsChanged.

Lemma rational_neq_same q : rational.neq q q = false.
Proof. apply rational_neq_false. reflexivity. Qed.

Lemma Interlacing_eqb_same i : Interlacing_eqb i i = true.
Proof. now destruct i. Qed.

Example size_change_is_signalled :
  InputValueChangedEvent (mkCurrent ExtraScenario.hd_params Scenario.sound)
                         kVideoParamsInput 0 ExtraScenario.sd_params =
    (ExtraScenario.hd_params,
     [emit_SizeChanged 1920 1080;
      video_frame_cache_SetTimebase (/ 24);
      emit_FrameRateChanged 24;
      emit_VideoParamsChanged;
      super_InputValueChangedEvent kVideoParamsInput 0]).
Proof. reflexivity. Qed.

(** X13.  [InputValueChangedEvent] for element 0 of the video parameters
    remembers the parameters it saw: a second notification while they are
    the same emits [VideoParamsChanged] and nothing else, with no size,
    pixel aspect, interlacing or frame rate signal and no new cache time
    base.  A notification for another element, or for an input that is
    neither parameter array, is only passed on to the base class, and none
    but a video notification for element 0 changes what is remembered. *)
Theorem parameter_change_is_remembered now input element cached :
  (let first := InputValueChangedEvent now kVideoParamsInput 0 cached in
   let second := InputValueChangedEvent now kVideoParamsInput 0 (fst first) in
   fst first = GetVideoParams now
   /\ second = (GetVideoParams now,
                [emit_VideoParamsChanged; super_InputValueChangedEvent kVideoParamsInput 0]))
  /\ (element <> 0 \/ (input <> kVideoParamsInput /\ input <> kAudioParamsInput) ->
      InputValueChangedEvent now input element cached =
        (cached, [super_InputValueChangedEvent input element]))
  /\ (element <> 0 \/ input <> kVideoParamsInput ->
      fst (InputValueChangedEvent now input element cached) = cached)
  /\ List.filter is_change_signal
       (snd (InputValueChangedEvent now kAudioParamsInput element cached)) = [].
Proof.
  split; [| split; [| split]].
  - cbn zeta. unfold InputValueChangedEvent.
    change (0 =? 0) with true. change (String.eqb kVideoParamsInput kVideoParamsInput) with true.
    cbn [fst snd]. split; [reflexivity |].
    rewrite !Z.eqb_refl, !rational_neq_same, Interlacing_eqb_same. reflexivity.
  - intros [He | [Hv Ha]]; unfold InputValueChangedEvent.
    + apply Z.eqb_neq in He. now rewrite He.
    + apply String.eqb_neq in Hv, Ha. rewrite Hv, Ha. now destruct (element =? 0).
  - intros [He | Hv]; unfold InputValueChangedEvent.
    + apply Z.eqb_neq in He. now rewrite He.
    + apply String.eqb_neq in Hv. rewrite Hv.
      destruct (element =? 0); [| reflexivity].
      now destruct (String.eqb input kAudioParamsInput).
  - unfold InputValueChangedEvent.
    change (String.eqb kAudioParamsInput kVideoParamsInput) with false.
    change (String.eqb kAudioParamsInput kAudioParamsInput) with true.
    now destruct (element =? 0).
Qed.

Lemma parameter_change_is_remembered_witness :
  (1 <> 0 \/ (kVideoParamsInput <> kVideoParamsInput /\ kVideoParamsInput <> kAudioParamsInput))
  /\ InputValueChangedEvent (mkCurrent ExtraScenario.hd_params Scenario.sound)
                            kVideoParamsInput 1 ExtraScenario.sd_params
     = (ExtraScenario.sd_params, [super_InputValueChangedEvent kVideoParamsInput 1]).
Proof.
  assert (H : 1 <> 0 \/ (kVideoParamsInput <> kVideoParamsInput
                         /\ kVideoParamsInput <> kAudioParamsInput))
    by (left; discriminate).
  split; [exact H |].
  exact (proj1 (proj2 (parameter_change_is_remembered
                         (mkCurrent ExtraScenario.hd_params Scenario.sound)
                         kVideoParamsInput 1 ExtraScenario.sd_params)) H).
Defined.

End ParamsChangedFacts.

(** ** What verification leaves alone *)

Lemma VerifyLength_frame g s :
  state_after (VerifyLength g s) =
    set_last_length (last_length_ (state_after (VerifyLength g s))) s.
Proof.
  destruct (Z.eq_dec (operation_stack_ s) 0) as [H | H].
  - rewrite (VerifyLength_run g s H). unfold state_after; cbn [fst snd].
    destruct (rational.neq _ _); [reflexivity | now destruct s].
  - rewrite (VerifyLength_suppressed g s H). now destruct s.
Qed.

Lemma InvalidateCache_frame g s range from element job_time :
  state_after (InvalidateCache g range from element job_time s) =
    set_last_length
      (last_length_ (state_after (InvalidateCache g range from element job_time s))) s.
Proof.
  destruct (Z.eq_dec (operation_stack_ s) 0) as [H | H].
  - rewrite (InvalidateCache_run g s range from element job_time H).
    change (state_after (tt, ?x, ?e)) with x. apply VerifyLength_frame.
  - rewrite (InvalidateCache_suppressed g s range from element job_time H).
    now destruct s.
Qed.

Lemma first_enabled_video_set_last_length q s i fuel :
  first_enabled_video (set_last_length q s) i fuel = first_enabled_video s i fuel.
Proof.
  revert i. induction fuel as [| fuel IH]; intros i; [reflexivity |].
  cbn [first_enabled_video]. now rewrite IH.
Qed.

Lemma first_enabled_audio_set_last_length q s i fuel :
  first_enabled_audio (set_last_length q s) i fuel = first_enabled_audio s i fuel.
Proof.
  revert i. induction fuel as [| fuel IH]; intros i; [reflexivity |].
  cbn [first_enabled_audio]. now rewrite IH.
Qed.

Lemma streams_set_last_length q s :
  GetFirstEnabledVideoStream (set_last_length q s) = GetFirstEnabledVideoStream s
  /\ GetFirstEnabledAudioStream (set_last_length q s) = GetFirstEnabledAudioStream s
  /\ GetEnabledStreamsAsReferences (set_last_length q s) = GetEnabledStreamsAsReferences s.
Proof.
  split; [apply first_enabled_video_set_last_length |].
  split; [apply first_enabled_audio_set_last_length |].
  unfold GetEnabledStreamsAsReferences.
  now rewrite !video_refs_from_seq, !audio_refs_from_seq.
Qed.

(** X14.  [InvalidateCache] and [VerifyLength] change nothing of the node
    but the memoized length: the operation stack, both parameter arrays and
    the output sockets are as before, so the registry's invariant, the
    enabled streams, [duration] and [rate] survive any notification. *)
Theorem notifications_touch_only_the_length g s range from element job_time :
  let s' := state_after (InvalidateCache g range from element job_time s) in
  s' = set_last_length (GetLength s') s
  /\ state_after (VerifyLength g s)
     = set_last_length (GetLength (state_after (VerifyLength g s))) s
  /\ (registry_ok s -> registry_ok s')
  /\ GetEnabledStreamsAsReferences s' = GetEnabledStreamsAsReferences s
  /\ (forall g', duration g' s' = duration g' s)
  /\ rate s' = rate s.
Proof.
  cbn zeta. pose proof (InvalidateCache_frame g s range from element job_time) as E.
  split; [exact E |]. split; [apply VerifyLength_frame |].
  rewrite E. unfold GetLength.
  generalize (last_length_ (state_after (InvalidateCache g range from element job_time s))).
  intros q. destruct (streams_set_last_length q s) as (Hv & Ha & Hr).
  split; [intros Hok; exact Hok |].
  split; [exact Hr |]. split.
  - intros g'. unfold duration. now rewrite Hv, Ha.
  - unfold rate, HasEnabledVideoStreams, HasEnabledAudioStreams. now rewrite Hv, Ha.
Qed.

Lemma notifications_touch_only_the_length_witness :
  registry_ok Scenario.fresh
  /\ registry_ok (state_after (InvalidateCache Scenario.graph (mkTimeRange 0 4)
                                               kTextureInput 0 7 Scenario.fresh)).
Proof.
  split; [exact (registry_ok_new false) |].
  exact (proj1 (proj2 (proj2
    (notifications_touch_only_the_length Scenario.graph Scenario.fresh (mkTimeRange 0 4)
       kTextureInput 0 7))) (registry_ok_new false)).
Defined.

(** ** Construction *)

(** X15.  A constructed node has the operation stack at zero and a null
    length; with default streams it has one video and one audio stream whose
    indices 0 each have an output socket, without them it has no stream and
    no output.  Either way the registry's invariant holds. *)
Theorem constructed_node create_default_streams :
  let r := ViewerOutput_new create_default_streams ViewerOutput_init in
  let s := state_after r in
  operation_stack_ s = 0
  /\ GetLength s = 0%Q
  /\ registry_ok s
  /\ GetVideoStreamCount s = (if create_default_streams then 1 else 0)
  /\ GetAudioStreamCount s = (if create_default_streams then 1 else 0)
  /\ Z.of_nat (size (outputs s)) = (if create_default_streams then 2 else 0)
  /\ (has_output s Track.kVideo 0 <-> create_default_streams = true)
  /\ (has_output s Track.kAudio 0 <-> create_default_streams = true).
Proof.
  cbn zeta. pose proof (registry_ok_new create_default_streams) as Hok.
  assert (Hcounts :
    GetVideoStreamCount
      (state_after (ViewerOutput_new create_default_streams ViewerOutput_init))
      = (if create_default_streams then 1 else 0)
    /\ GetAudioStreamCount
      (state_after (ViewerOutput_new create_default_streams ViewerOutput_init))
      = (if create_default_streams then 1 else 0)).
  { destruct create_default_streams; [| split; reflexivity].
    unfold ViewerOutput_new, mbind, M_bind, bind.
    rewrite AddStream_video, AddStream_audio. split; reflexivity. }
  destruct Hcounts as [Hv Ha].
  split; [| split; [| split; [exact Hok | split; [exact Hv | split; [exact Ha |]]]]].
  - destruct create_default_streams; [| reflexivity].
    unfold ViewerOutput_new, mbind, M_bind, bind.
    now rewrite AddStream_video, AddStream_audio.
  - destruct create_default_streams; [| reflexivity].
    unfold ViewerOutput_new, mbind, M_bind, bind.
    now rewrite AddStream_video, AddStream_audio.
  - split; [| split].
    + destruct create_default_streams; vm_compute; reflexivity.
    + rewrite (Hok Track.kVideo 0) by discriminate.
      change (stream_count ?x Track.kVideo) with (GetVideoStreamCount x). rewrite Hv.
      destruct create_default_streams; split; intros H;
        first [reflexivity | lia | discriminate H].
    + rewrite (Hok Track.kAudio 0) by discriminate.
      change (stream_count ?x Track.kAudio) with (GetAudioStreamCount x). rewrite Ha.
      destruct create_default_streams; split; intros H;
        first [reflexivity | lia | discriminate H].
Qed.
